(** * Two-level threshold pipeline of ilastik: a shallow embedding

    Embedding of [ilastik/applets/thresholdTwoLevels/opThresholdTwoLevels.py]:
    the anisotropic Gaussian smoothing operator (halo computation, dirty
    propagation, float32 conversion), the label selection operator and the
    configuration of the composite two-level threshold operator.

    Python exceptions are values of type [exn]; a function that can raise
    returns [res A].  Index vectors (lazyflow's [TinyVector], a [list]
    subclass) are [list Z].  Numerical kernels of vigra are parameters. *)

From Stdlib Require Import ZArith QArith Qround List Bool Lia Relations.
Import ListNotations.
Open Scope Z_scope.

(** ** Python level: exceptions, list operations *)

Module Py.

Inductive exn : Type :=
| AssertionError (which : nat)   (* numbered by source line *)
| ValueError
| IndexError
| TypeError
| NameError.

Definition res (A : Type) : Type := (exn + A)%type.

Definition ret {A} (a : A) : res A := inr a.
Definition raise {A} (e : exn) : res A := inl e.
Definition bind {A B} (m : res A) (k : A -> res B) : res B :=
  match m with
  | inl e => inl e
  | inr a => k a
  end.

(** [assert cond, msg] *)
Definition assert (line : nat) (cond : bool) : res unit :=
  if cond then inr tt else inl (AssertionError line).

(** [list.index(x)]: position of the first occurrence, ValueError if absent. *)
Fixpoint list_index {A} (eqb : A -> A -> bool) (x : A) (l : list A) : res nat :=
  match l with
  | [] => raise ValueError
  | y :: r => if eqb y x then ret O
              else bind (list_index eqb x r) (fun i => ret (S i))
  end.

(** [list.pop(i)] for [0 <= i]: the list without position [i]; IndexError
    when [i] is out of range. *)
Fixpoint pop_at {A} (i : nat) (l : list A) : res (list A) :=
  match i, l with
  | _, [] => raise IndexError
  | O, _ :: r => ret r
  | S j, x :: r => bind (pop_at j r) (fun r' => ret (x :: r'))
  end.

(** [list.insert(i, v)] for [0 <= i]: a position past the end appends. *)
Fixpoint insert_at {A} (i : nat) (v : A) (l : list A) : list A :=
  match i, l with
  | O, _ => v :: l
  | S j, x :: r => x :: insert_at j v r
  | S _, [] => [v]
  end.

(** [l[k]] on a sequence of length [n]: a negative index counts from the
    end, anything outside raises IndexError.  Returns the position. *)
Definition seq_index (n k : Z) : res nat :=
  if (0 <=? k) && (k <? n) then ret (Z.to_nat k)
  else if (k <? 0) && (0 <=? n + k) then ret (Z.to_nat (n + k))
  else raise IndexError.

End Py.

Import Py.

Declare Scope py_scope.
Delimit Scope py_scope with py.
Notation "x <- m ;; k" := (bind m (fun x => k))
  (at level 61, m at next level, right associativity) : py_scope.
Notation "' pat <- m ;; k" := (bind m (fun x => match x with pat => k end))
  (at level 61, pat pattern, m at next level, right associativity) : py_scope.
Notation "m ;;; k" := (bind m (fun _ => k))
  (at level 61, right associativity) : py_scope.
Open Scope py_scope.

(** ** Arrays, axis tags, metadata *)

Inductive Dtype : Type := bool_ | uint8 | uint32 | int32 | int64 | float32 | float64.

Definition Dtype_eqb (a b : Dtype) : bool :=
  match a, b with
  | bool_, bool_ | uint8, uint8 | uint32, uint32 | int32, int32
  | int64, int64 | float32, float32 | float64, float64 => true
  | _, _ => false
  end.

(** Axis keys of a tagged shape: spatial x, y, z, channel c and time t. *)
Inductive AxisKey : Type := Kx | Ky | Kz | Kc | Kt.

Definition AxisKey_eqb (a b : AxisKey) : bool :=
  match a, b with
  | Kx, Kx | Ky, Ky | Kz, Kz | Kc, Kc | Kt, Kt => true
  | _, _ => false
  end.

(** [k in 'xyz'] *)
Definition in_xyz (k : AxisKey) : bool :=
  match k with Kx | Ky | Kz => true | _ => false end.

(** Slot metadata: shape, axis tags, element type, optional display range. *)
Record Meta : Type := mkMeta {
  shape : list Z;
  axistags : list AxisKey;
  dtype : Dtype;
  drange : option (Q * Q)
}.

(** A dense array: element type tag, shape, elements in row-major order. *)
Record ndarray (V : Type) : Type := mkArray {
  a_dtype : Dtype;
  a_shape : list Z;
  a_data : list V
}.
Arguments mkArray {V}.
Arguments a_dtype {V}.
Arguments a_shape {V}.
Arguments a_data {V}.

(** A region of interest: start and stop index vectors. *)
Definition Roi : Type := (list Z * list Z)%type.

(** ** TinyVector arithmetic

    [TinyVector.__add__] and [__sub__] map a binary lambda over both
    operands; operands of different length make the lambda meet [None],
    a TypeError. *)

Fixpoint vzip (f : Z -> Z -> Z) (a b : list Z) : res (list Z) :=
  match a, b with
  | [], [] => ret []
  | x :: a', y :: b' => r <- vzip f a' b' ;; ret (f x y :: r)
  | _, _ => raise TypeError
  end.

Definition vadd := vzip Z.add.
Definition vsub := vzip Z.sub.

(** Row-major enumeration of the index vectors of an array of the given
    shape. *)
Definition zrange (n : Z) : list Z := map Z.of_nat (seq 0 (Z.to_nat n)).

Fixpoint indices (sh : list Z) : list (list Z) :=
  match sh with
  | [] => [[]]
  | n :: rest => flat_map (fun i => map (cons i) (indices rest)) (zrange n)
  end.

(** Pointwise combination of index vectors that are known to have the
    same rank (the roi handed to a slot and the positions inside it). *)
Fixpoint zipw (f : Z -> Z -> Z) (a b : list Z) : list Z :=
  match a, b with
  | x :: a', y :: b' => f x y :: zipw f a' b'
  | _, _ => []
  end.

Definition vplus : list Z -> list Z -> list Z := zipw Z.add.
Definition vminus : list Z -> list Z -> list Z := zipw Z.sub.

(** An upstream slot: its metadata and the value it provides at each
    position.  Calling the slot on a roi and waiting for the request
    yields the sub-volume of extent [stop - start]. *)
Record Slot (V : Type) : Type := mkSlot {
  meta : Meta;
  voxel : list Z -> V
}.
Arguments mkSlot {V}.
Arguments meta {V}.
Arguments voxel {V}.

Definition fetch {V} (s : Slot V) (start stop : list Z) : ndarray V :=
  let extent := vminus stop start in
  mkArray (dtype (meta s)) extent
          (map (fun i => voxel s (vplus start i)) (indices extent)).

(** Modelled from the spec: lazyflow's request machinery is not part of
    the sources; it hands [execute] a destination of the output's element
    type and of the requested extent ("returns exactly the sub-volume
    requested").  The initial content of the destination is irrelevant and
    taken to be [fill]. *)
Definition allocateDestination {V} (fill : V) (m : Meta) (start stop : list Z)
  : ndarray V :=
  let extent := vminus stop start in
  mkArray (dtype m) extent (map (fun _ => fill) (indices extent)).

(** numpy elementwise operations on arrays. *)
Definition ew1 {A B} (d : Dtype) (f : A -> B) (a : ndarray A) : ndarray B :=
  mkArray d (a_shape a) (map f (a_data a)).

Definition shape_eqb (s t : list Z) : bool :=
  (length s =? length t)%nat && forallb (fun p => fst p =? snd p) (combine s t).

(** Binary elementwise operation; only operands of one shape are modelled
    (no broadcasting), anything else is reported as numpy's ValueError. *)
Definition ew2 {A B C} (d : Dtype) (f : A -> B -> C)
  (a : ndarray A) (b : ndarray B) : res (ndarray C) :=
  if shape_eqb (a_shape a) (a_shape b)
  then ret (mkArray d (a_shape a)
                    (map (fun p => f (fst p) (snd p)) (combine (a_data a) (a_data b))))
  else raise ValueError.

(** [dst[:] = src]: the destination keeps its element type. *)
Definition assign_all {V} (dst src : ndarray V) : res (ndarray V) :=
  if shape_eqb (a_shape dst) (a_shape src)
  then ret (mkArray (a_dtype dst) (a_shape dst) (a_data src))
  else raise ValueError.

(** ** OpSelectLabels *)

Module OpSelectLabels.

Inductive InSlot : Type := SmallLabels | BigLabels.

Inductive AnySlot : Type := Input (s : InSlot) | Output | Foreign.

Definition InSlot_eqb (a b : InSlot) : bool :=
  match a, b with
  | SmallLabels, SmallLabels | BigLabels, BigLabels => true
  | _, _ => false
  end.

(** The operator with its two connected inputs. *)
Record Op : Type := mkOp {
  small : Slot Z;
  big : Slot Z
}.

Definition input (op : Op) (s : InSlot) : Slot Z :=
  match s with SmallLabels => small op | BigLabels => big op end.

Definition setupOutputs (op : Op) : Meta :=
  let m := meta (big op) in
  mkMeta (shape m) (axistags m) uint8 (Some (0#1, 1#1)%Q).

(** An upstream fetch, with the label sub-volumes that are referenced at
    the moment the fetch is issued. *)
Inductive Event : Type :=
| Fetch (s : InSlot) (start stop : list Z) (held : list InSlot).

(** Local variables of [execute].  [req_holds] is the array still
    referenced by the request object [smallLabelsReq] (dropped by
    [clean()]); the other fields are the local names, [None] when unbound
    or deleted.  [trace] records the fetches made so far.  The debug
    logging of the body does not touch any of these and is left out. *)
Record Frame : Type := mkFrame {
  req_holds : option (ndarray Z);
  smallLabels : option (ndarray Z);
  smallNonZero : option (ndarray bool);
  bigLabels : option (ndarray Z);
  prod : option (ndarray Z);
  result : ndarray Z;
  trace : list Event
}.

Definition is_some {A} (o : option A) : bool :=
  match o with Some _ => true | None => false end.

(** Label sub-volumes referenced from the frame. *)
Definition held (f : Frame) : list InSlot :=
  (if is_some (req_holds f) || is_some (smallLabels f) then [SmallLabels] else [])
  ++ (if is_some (bigLabels f) then [BigLabels] else []).

(** Reading a local name that is unbound (or deleted) is a NameError. *)
Definition local {A} (o : option A) : res A :=
  match o with Some a => ret a | None => raise NameError end.

Definition initial (res0 : ndarray Z) : Frame :=
  mkFrame None None None None None res0 [].

(** One definition per statement of the body, in source order. *)

(* smallLabelsReq = self.SmallLabels(roi.start, roi.stop)
   smallLabels = smallLabelsReq.wait() *)
Definition st_fetch_small (op : Op) (roi : Roi) (f : Frame) : res Frame :=
  let a := fetch (small op) (fst roi) (snd roi) in
  ret (mkFrame (Some a) (Some a) (smallNonZero f) (bigLabels f) (prod f)
               (result f)
               (trace f ++ [Fetch SmallLabels (fst roi) (snd roi) (held f)])).

(* smallLabelsReq.clean() *)
Definition st_clean (f : Frame) : res Frame :=
  ret (mkFrame None (smallLabels f) (smallNonZero f) (bigLabels f) (prod f)
               (result f) (trace f)).

(* smallNonZero = numpy.ndarray(shape=smallLabels.shape, dtype=bool)
   smallNonZero[...] = (smallLabels != 0) *)
Definition st_reduce (f : Frame) : res Frame :=
  a <- local (smallLabels f) ;;
  ret (mkFrame (req_holds f) (smallLabels f)
               (Some (ew1 bool_ (fun v => negb (v =? 0)) a))
               (bigLabels f) (prod f) (result f) (trace f)).

(* del smallLabels *)
Definition st_del_small (f : Frame) : res Frame :=
  _ <- local (smallLabels f) ;;
  ret (mkFrame (req_holds f) None (smallNonZero f) (bigLabels f) (prod f)
               (result f) (trace f)).

(* bigLabels = self.BigLabels(roi.start, roi.stop).wait() *)
Definition st_fetch_big (op : Op) (roi : Roi) (f : Frame) : res Frame :=
  let a := fetch (big op) (fst roi) (snd roi) in
  ret (mkFrame (req_holds f) (smallLabels f) (smallNonZero f) (Some a) (prod f)
               (result f)
               (trace f ++ [Fetch BigLabels (fst roi) (snd roi) (held f)])).

(* prod = smallNonZero * bigLabels *)
Definition st_prod (f : Frame) : res Frame :=
  m <- local (smallNonZero f) ;;
  b <- local (bigLabels f) ;;
  p <- ew2 (a_dtype b) (fun (nz : bool) (v : Z) => Z.b2z nz * v) m b ;;
  ret (mkFrame (req_holds f) (smallLabels f) (smallNonZero f) (bigLabels f)
               (Some p) (result f) (trace f)).

(* result[:] = (prod>0).astype(numpy.uint8) *)
Definition st_store (f : Frame) : res Frame :=
  p <- local (prod f) ;;
  r <- assign_all (result f) (ew1 uint8 (fun v => Z.b2z (v >? 0)) p) ;;
  ret (mkFrame (req_holds f) (smallLabels f) (smallNonZero f) (bigLabels f)
               (prod f) r (trace f)).

Definition body (op : Op) (roi : Roi) : list (Frame -> res Frame) :=
  [ st_fetch_small op roi; st_clean; st_reduce; st_del_small;
    st_fetch_big op roi; st_prod; st_store ].

Fixpoint run (steps : list (Frame -> res Frame)) (f : Frame) : res Frame :=
  match steps with
  | [] => ret f
  | s :: rest => f' <- s f ;; run rest f'
  end.

(** [execute(slot, subindex, roi, result)]: the final frame; the value
    returned to the caller is its [result]. *)
Definition execute_frame (op : Op) (slot : AnySlot) (roi : Roi)
  (res0 : ndarray Z) : res Frame :=
  assert 127 (match slot with Output => true | _ => false end) ;;;
  run (body op roi) (initial res0).

Definition execute (op : Op) (slot : AnySlot) (roi : Roi)
  (res0 : ndarray Z) : res (ndarray Z) :=
  f <- execute_frame op slot roi res0 ;; ret (result f).

(** A request on the output slot over a roi. *)
Definition request (op : Op) (roi : Roi) : res (ndarray Z) :=
  execute op Output roi
          (allocateDestination 0 (setupOutputs op) (fst roi) (snd roi)).

Inductive Dirty : Type := DirtyAll | DirtyRoi (start stop : list Z).

Definition propagateDirty (slot : AnySlot) (roi : Roi) : res Dirty :=
  match slot with
  | Input _ => ret DirtyAll
  | _ => raise (AssertionError 186)
  end.

(** Value of the mask at one voxel, from the two label values there. *)
Definition select_voxel (s b : Z) : Z :=
  Z.b2z (Z.b2z (negb (s =? 0)) * b >? 0).

End OpSelectLabels.

(** ** Halo extension

    Modelled from the spec: [lazyflow.roi.extendSlice] is imported, not
    part of the sources.  It "grows start/stop outward by a per-axis
    non-negative radius, then clips to bounds", the radius being the
    "constant factor x sigma, rounded up".  Finite floating-point numbers
    are rationals; the product with the window 2.0 is exact in binary
    floating point, so the radius is [Qceiling (2 * sigma)].  A missing
    sigma ([dict.get] returned [None]) makes the product a TypeError. *)

Definition halo (window sigma : Q) : Z := Qceiling (window * sigma).

Fixpoint halos (window : Q) (sigma : list (option Q)) : res (list Z) :=
  match sigma with
  | [] => ret []
  | None :: _ => raise TypeError
  | Some s :: rest => r <- halos window rest ;; ret (halo window s :: r)
  end.

Definition extendSlice (start stop shp : list Z) (sigma : list (option Q))
  (window : Q) : res Roi :=
  h <- halos window sigma ;;
  lo <- vsub start h ;;
  hi <- vadd stop h ;;
  newStop <- vzip Z.min hi shp ;;
  ret (map (fun x => Z.max x 0) lo, newStop).

(** ** OpAnisotropicGaussianSmoothing *)

Module OpAnisotropicGaussianSmoothing.

Inductive AnySlot : Type := Input | Sigmas | Output | Foreign.

(** Value of the [Sigmas] slot: a dict from axis keys to numbers, or
    something that is not a dict. *)
Inductive SigmasValue : Type :=
| SigDict (d : list (AxisKey * Q))
| SigOther.

(** [d.get(k)] *)
Fixpoint dict_get (d : list (AxisKey * Q)) (k : AxisKey) : option Q :=
  match d with
  | [] => None
  | (k', v) :: r => if AxisKey_eqb k' k then Some v else dict_get r k
  end.

(** [set(d.keys()) == set('xyz')] *)
Definition keys_are_xyz (d : list (AxisKey * Q)) : bool :=
  forallb (fun p => in_xyz (fst p)) d
  && forallb (fun k => existsb (fun p => AxisKey_eqb (fst p) k) d) [Kx; Ky; Kz].

Inductive Dirty : Type := DirtyAll | DirtyRoi (start stop : list Z).

(** The operator once configured: the metadata of its input and output
    and the private copy [_sigmas]. *)
Record Op : Type := mkOp {
  in_meta : Meta;
  out_meta : Meta;
  _sigmas : list (AxisKey * Q)
}.

Definition setupOutputs (input_meta : Meta) (sigmas : SigmasValue)
  : res (Op * Dirty) :=
  (* self.Output.meta.assignFrom(self.Input.meta); dtype = float32 *)
  let om := mkMeta (shape input_meta) (axistags input_meta) float32
                   (drange input_meta) in
  assert 43 (match sigmas with SigDict _ => true | SigOther => false end) ;;;
  match sigmas with
  | SigDict d =>
      assert 44 (keys_are_xyz d) ;;;
      ret (mkOp input_meta om d, DirtyAll)
  | SigOther => raise (AssertionError 43)
  end.

(** [getTaggedShape()] without its ['c'] entry, [.values()]. *)
Definition spatial_shape (m : Meta) : list Z :=
  map snd (filter (fun p => negb (AxisKey_eqb (fst p) Kc))
                  (combine (axistags m) (shape m))).

(** [map(self._sigmas.get, filter(lambda k: k in 'xyz', axiskeys))] *)
Definition spatial_sigma (op : Op) : list (option Q) :=
  map (dict_get (_sigmas op)) (filter in_xyz (axistags (in_meta op))).

Definition _getInputComputeRois (op : Op) (roi : Roi) : res (Roi * Roi) :=
  let axiskeys := axistags (in_meta op) in
  let sigma := spatial_sigma op in
  let inputSpatialShape := spatial_shape (in_meta op) in
  c <- list_index AxisKey_eqb Kc axiskeys ;;
  s0 <- pop_at c (fst roi) ;;
  s1 <- pop_at c (snd roi) ;;
  inputSpatialRoi <- extendSlice s0 s1 inputSpatialShape sigma (2#1) ;;
  inputRoiOffset <- vsub s0 (fst inputSpatialRoi) ;;
  t <- vadd inputRoiOffset s1 ;;
  computeStop <- vsub t s0 ;;
  let computeRoi := (inputRoiOffset, computeStop) in
  let inputRoi := (insert_at c 0 (fst inputSpatialRoi),
                   insert_at c 1 (snd inputSpatialRoi)) in
  ret (inputRoi, computeRoi).

Definition propagateDirty (op : Op) (slot : AnySlot) (roi : Roi) : res Dirty :=
  match slot with
  | Input =>
      r <- _getInputComputeRois op roi ;;
      ret (DirtyRoi (fst (fst r)) (snd (fst r)))
  | Sigmas => ret DirtyAll
  | _ => raise (AssertionError 109)
  end.

(** [all(roi.stop <= shape)]: the comparison is mapped over both
    vectors; a missing partner is [None], which Python 2 orders below
    every number. *)
Fixpoint all_le (a b : list Z) : bool :=
  match a, b with
  | [], _ => true
  | _ :: _, [] => false
  | x :: a', y :: b' => (x <=? y) && all_le a' b'
  end.

(** The view [a[...,0]] and a write through it. *)
Fixpoint every_nth {V} (n : nat) (k : nat) (l : list V) : list V :=
  match l with
  | [] => []
  | x :: r => match k with
              | O => x :: every_nth n (Nat.pred n) r
              | S k' => every_nth n k' r
              end
  end.

Fixpoint scatter_nth {V} (n : nat) (k : nat) (l src : list V) : list V :=
  match l with
  | [] => []
  | x :: r => match k with
              | O => match src with
                     | [] => x :: scatter_nth n (Nat.pred n) r src
                     | y :: src' => y :: scatter_nth n (Nat.pred n) r src'
                     end
              | S k' => x :: scatter_nth n k' r src
              end
  end.

Definition view_last0 {V} (a : ndarray V) : res (ndarray V) :=
  match a_shape a with
  | [] => raise IndexError
  | _ :: _ =>
      let n := last (a_shape a) 0 in
      if n <=? 0 then raise IndexError
      else ret (mkArray (a_dtype a) (removelast (a_shape a))
                        (every_nth (Z.to_nat n) 0 (a_data a)))
  end.

Definition write_last0 {V} (a : ndarray V) (src : ndarray V) : ndarray V :=
  mkArray (a_dtype a) (a_shape a)
          (scatter_nth (Z.to_nat (last (a_shape a) 1)) 0 (a_data a) (a_data src)).

(** What [execute] hands back: the destination it filled, and the rois
    it requested from its input on the way. *)
Record Outcome : Type := mkOutcome {
  returned : ndarray Q;
  requested : list Roi
}.

Section Execute.

(** Rounding of one element by [astype(numpy.float32)]. *)
Variable to_float32 : Q -> Q.

(** [vigra.filters.gaussianSmoothing(data, sigma, window_size=2.0,
    roi=..., out=...)]: the smoothed array it returns (the [out]
    view, filled). *)
Variable gaussianSmoothing :
  ndarray Q -> list (option Q) -> Roi -> ndarray Q -> ndarray Q.

Definition astype_float32 (a : ndarray Q) : ndarray Q :=
  mkArray float32 (a_shape a) (map to_float32 (a_data a)).

(* if data.dtype != numpy.float32: data = data.astype(numpy.float32) *)
Definition ensure_float32 (data : ndarray Q) : ndarray Q :=
  if negb (Dtype_eqb (a_dtype data) float32)
  then astype_float32 data else data.

Definition execute (op : Op) (input : Slot Q) (roi : Roi)
  (result : ndarray Q) : res Outcome :=
  assert 49 (all_le (snd roi) (shape (in_meta op))) ;;;
  r <- _getInputComputeRois op roi ;;
  let inputRoi := fst r in
  let computeRoi := snd r in
  let data := fetch input (fst inputRoi) (snd inputRoi) in
  (* Must be float32 *)
  let data := ensure_float32 data in
  let sigma := spatial_sigma op in
  out <- view_last0 result ;;
  let smoothed := gaussianSmoothing data sigma computeRoi out in
  expectedShape <- vsub (snd computeRoi) (fst computeRoi) ;;
  assert 69 (shape_eqb (a_shape smoothed) expectedShape) ;;;
  ret (mkOutcome (write_last0 result smoothed) [inputRoi]).

(** A request on the output slot over a roi. *)
Definition request (op : Op) (input : Slot Q) (roi : Roi) : res Outcome :=
  execute op input roi
          (allocateDestination (0#1)%Q (out_meta op) (fst roi) (snd roi)).

End Execute.

End OpAnisotropicGaussianSmoothing.

(** ** OpThresholdTwoLevels *)

Module OpThresholdTwoLevels.

Inductive InSlot : Type :=
| RawInput | InputImage | MinSize | MaxSize | HighThreshold | LowThreshold
| SmootherSigma | Channel | InputHdf5.

Inductive OutSlot : Type :=
| Output | CachedOutput | OutputHdf5 | CleanBlocks
| InputChannels | Smoothed | BigRegions | SmallRegions | FilteredSmallLabels.

(** Output slots of the inner operators created in [__init__]. *)
Inductive Provider : Type :=
| opSelectLabels_Output
| opCache_Output | opCache_CleanBlocks | opCache_OutputHdf5
| opSmoother_Output
| opChannelSlicer_Slices
| opBigRegionCache_Output
| opSmallRegionCache_Output
| opColorizeSmallLabels_Output.

(** The [connect] calls of [__init__] on the operator's own outputs, in
    source order. *)
Definition connections : list (OutSlot * Provider) :=
  [ (Output, opSelectLabels_Output);
    (CachedOutput, opCache_Output);
    (CleanBlocks, opCache_CleanBlocks);
    (OutputHdf5, opCache_OutputHdf5);
    (Smoothed, opSmoother_Output);
    (InputChannels, opChannelSlicer_Slices);
    (BigRegions, opBigRegionCache_Output);
    (SmallRegions, opSmallRegionCache_Output);
    (FilteredSmallLabels, opColorizeSmallLabels_Output) ].

Definition OutSlot_eqb (a b : OutSlot) : bool :=
  match a, b with
  | Output, Output | CachedOutput, CachedOutput | OutputHdf5, OutputHdf5
  | CleanBlocks, CleanBlocks | InputChannels, InputChannels
  | Smoothed, Smoothed | BigRegions, BigRegions
  | SmallRegions, SmallRegions
  | FilteredSmallLabels, FilteredSmallLabels => true
  | _, _ => false
  end.

(** The partner an output slot is connected to, if any. *)
Definition partner (s : OutSlot) : option Provider :=
  option_map snd (find (fun p => OutSlot_eqb (fst p) s) connections).

(** Values and metadata of the input slots that [setupOutputs] reads. *)
Record Inputs : Type := mkInputs {
  InputImage_meta : Meta;
  HighThreshold_value : Q;
  LowThreshold_value : Q;
  Channel_value : Z
}.

(** What [setupOutputs] establishes: the position among the channel
    slicer's [Slices] the smoother is connected to, the threshold bound
    into each pixel operator's function, and the output metadata. *)
Record Config : Type := mkConfig {
  smoother_slice : nat;
  low_bound : Q;
  high_bound : Q;
  Output_meta : Meta
}.

(** vigra's [AxisTags.index(key)]: the position of the key, or the
    number of axes when the key is absent. *)
Fixpoint axistags_index (k : AxisKey) (tags : list AxisKey) : nat :=
  match tags with
  | [] => O
  | t :: r => if AxisKey_eqb t k then O else S (axistags_index k r)
  end.

(** [shape[i]] on a tuple, for [0 <= i]. *)
Definition tuple_get (sh : list Z) (i : nat) : res Z :=
  match nth_error sh i with
  | Some v => ret v
  | None => raise IndexError
  end.

(** Modelled from the spec: [OpMultiArraySlicer2] is imported, not part
    of the sources; sliced along ['c'] its [Slices] output has one
    sub-slot per channel ("selects which plane of a multi-channel input
    feeds the rest of the pipeline").  [Slices[k]] is then an index into
    a sequence of that length. *)
Definition Slices_index (channels k : Z) : res nat := seq_index channels k.

Definition setupOutputs (inp : Inputs) : res Config :=
  let m := InputImage_meta inp in
  assert 291 (length (shape m) <=? 4)%nat ;;;
  let channelAxis := axistags_index Kc (axistags m) in
  let hackChannel := Channel_value inp in
  channels <- tuple_get (shape m) channelAxis ;;
  let hackChannel := if hackChannel >? channels then 0 else hackChannel in
  slice <- Slices_index channels hackChannel ;;
  ret (mkConfig slice (LowThreshold_value inp) (HighThreshold_value inp)
                (mkMeta (shape m) (axistags m) uint32 (drange m))).

Definition of_bool (b : bool) : Q := if b then 1#1 else 0#1.

Section Threshold.

(** Floating-point product ([thresholdValue *= drange[1]]). *)
Variable fmul : Q -> Q -> Q.

(** numpy compares an array with a Python float in the type the pair
    promotes to: [compare_as d t] is the float [t] converted to that type
    for an array of element type [d] (rounded to float32 for a float32
    array, unchanged for float64).  The elements of the array are exact
    in that type. *)
Variable compare_as : Dtype -> Q -> Q.

(** [a > t] for an array and a Python float. *)
Definition gt_scalar (a : ndarray Q) (t : Q) : list bool :=
  map (fun v => negb (Qle_bool v (compare_as (a_dtype a) t))) (a_data a).

(** The closure [thresholdToUint8]; [smoothed_meta] is
    [self._opSmoother.Output.meta], read when the closure runs. *)
Definition thresholdToUint8 (smoothed_meta : Meta) (thresholdValue : Q)
  (a : ndarray Q) : res (ndarray Q) :=
  thresholdValue <-
    match drange smoothed_meta with
    | Some dr =>
        assert 307 (Qeq_bool (fst dr) (0#1)) ;;;
        ret (fmul thresholdValue (snd dr))
    | None => ret thresholdValue
    end ;;
  let above := gt_scalar a thresholdValue in
  if Dtype_eqb (a_dtype a) uint8
  then (* a[:] = (a > thresholdValue); return a *)
       ret (mkArray (a_dtype a) (a_shape a) (map of_bool above))
  else (* (a > thresholdValue).astype(numpy.uint8) *)
       ret (mkArray uint8 (a_shape a) (map of_bool above)).

(** [partial(thresholdToUint8, self.LowThreshold.value)] and its twin. *)
Definition opLowThresholder_Function (cfg : Config) (smoothed_meta : Meta) :=
  thresholdToUint8 smoothed_meta (low_bound cfg).

Definition opHighThresholder_Function (cfg : Config) (smoothed_meta : Meta) :=
  thresholdToUint8 smoothed_meta (high_bound cfg).

End Threshold.

Definition execute {V} (slot : OutSlot) (subindex : list nat) (roi : Roi)
  (result : ndarray V) : res (ndarray V) :=
  raise (AssertionError 324).

Definition propagateDirty (slot : InSlot) (subindex : list nat) (roi : Roi)
  : res unit := ret tt.

Definition setInSlot (slot : InSlot) : res unit :=
  assert 330 (match slot with InputHdf5 => true | _ => false end).

End OpThresholdTwoLevels.

(** * Notions used by the statements *)

Module Spec.

(** A position lies in the box [start, stop). *)
Fixpoint inside (p start stop : list Z) : Prop :=
  match p, start, stop with
  | [], [], [] => True
  | x :: p', a :: start', b :: stop' => a <= x < b /\ inside p' start' stop'
  | _, _, _ => False
  end.

Definition intersects (a b : Roi) : Prop :=
  exists x, inside x (fst a) (snd a) /\ inside x (fst b) (snd b).

(** The roi made of the single position [p]. *)
Definition voxel_roi (p : list Z) : Roi := (p, map Z.succ p).

(** Selection as the class docstring of [OpSelectLabels] words it: a
    big label is kept when some voxel carrying it also carries a small
    label; the mask marks every voxel of a kept label. *)
Definition label_survives (bigd smalld : list Z) (l : Z) : bool :=
  existsb (fun p => (fst p =? l) && negb (snd p =? 0)) (combine bigd smalld).

Definition select_components (bigd smalld : list Z) : list Z :=
  map (fun b => Z.b2z ((0 <? b) && label_survives bigd smalld b)) bigd.

(** A 3 x 4 image with two big components, A (label 1, four voxels at
    the top left) and B (label 2, the right column), and one small label
    on a single voxel of A. *)
Definition two_components : Slot Z :=
  mkSlot (mkMeta [3; 4] [Ky; Kx] uint32 None)
         (fun p => match p with
                   | [0; 0] | [0; 1] | [1; 0] | [1; 1] => 1
                   | [0; 3] | [1; 3] | [2; 3] => 2
                   | _ => 0
                   end).

Definition one_seed : Slot Z :=
  mkSlot (mkMeta [3; 4] [Ky; Kx] uint32 None)
         (fun p => match p with
                   | [0; 0] => 5
                   | _ => 0
                   end).

Definition whole_image : Roi := ([0; 0], [3; 4]).

(** An input image with two channels, and the channel parameter set to 2. *)
Definition two_channel_inputs : OpThresholdTwoLevels.Inputs :=
  OpThresholdTwoLevels.mkInputs
    (mkMeta [10; 10; 2] [Kx; Ky; Kc] float32 (Some (0#1, 1#1)%Q))
    (1#2)%Q (1#5)%Q 2.

(** [out] is [data] binarized against [thr]: 1 where the value is
    strictly above the threshold, 0 elsewhere. *)
Definition binarized (thr : Q) (data out : list Q) : Prop :=
  Forall2 (fun v r => (r = (1#1)%Q /\ (thr < v)%Q) \/ (r = (0#1)%Q /\ (v <= thr)%Q))
          data out.

(** A stand-in for the conversion of a threshold to the comparison type:
    float32 is given a coarse grid (multiples of 1/4, rounding down), every
    other type keeps the value. *)
Definition coarse_float32 (d : Dtype) (t : Q) : Q :=
  match d with
  | float32 => (inject_Z (Qfloor (t * (4#1))) * (1#4))%Q
  | _ => t
  end.

(** Smoothed-data metadata with the given display range. *)
Definition smoothed_meta (dr : option (Q * Q)) : Meta :=
  mkMeta [4; 1] [Kx; Kc] float32 dr.

Definition one_row : ndarray Q :=
  mkArray float32 [4; 1] [(1#10)%Q; (3#4)%Q; (1#2)%Q; (9#10)%Q].

(** Axis tags the smoothing operator handles: exactly one channel
    axis, every other axis spatial. *)
Fixpoint supported_axes (tags : list AxisKey) : bool :=
  match tags with
  | [] => false
  | k :: rest => if AxisKey_eqb k Kc then forallb in_xyz rest
                 else in_xyz k && supported_axes rest
  end.

(** A configured smoothing operator whose input has distinct, supported
    axis tags, one extent per tag, and sigmas for x, y and z. *)
Definition well_formed (op : OpAnisotropicGaussianSmoothing.Op) : Prop :=
  let m := OpAnisotropicGaussianSmoothing.in_meta op in
  NoDup (axistags m)
  /\ supported_axes (axistags m) = true
  /\ length (shape m) = length (axistags m)
  /\ OpAnisotropicGaussianSmoothing.keys_are_xyz
       (OpAnisotropicGaussianSmoothing._sigmas op) = true
  /\ shape (OpAnisotropicGaussianSmoothing.out_meta op) = shape m.

(** The channel axis is the last one (the FIXME of [execute]). *)
Definition channel_last (m : Meta) : Prop :=
  list_index AxisKey_eqb Kc (axistags m) = inr (Nat.pred (length (axistags m))).

(** Extent of the channel axis. *)
Definition channel_extent (m : Meta) : option Z :=
  match list_index AxisKey_eqb Kc (axistags m) with
  | inr c => nth_error (shape m) c
  | inl _ => None
  end.

(** A non-empty roi within the bounds of a shape. *)
Fixpoint within (start stop shp : list Z) : Prop :=
  match start, stop, shp with
  | [], [], [] => True
  | a :: start', b :: stop', n :: shp' =>
      0 <= a < b /\ b <= n /\ within start' stop' shp'
  | _, _, _ => False
  end.

(** A position within the bounds of a shape. *)
Definition in_shape (p shp : list Z) : Prop :=
  inside p (map (fun _ => 0) shp) shp.

(** The documented contract of the smoothing kernel called with a roi
    and an output array of the roi's extent: the array it returns has
    that extent. *)
Definition kernel_contract
  (k : ndarray Q -> list (option Q) -> Roi -> ndarray Q -> ndarray Q) : Prop :=
  forall d s r out,
    a_shape out = vminus (snd r) (fst r) ->
    a_shape (k d s r out) = vminus (snd r) (fst r).

(** The requested extent without its channel entry. *)
Definition spatial_extent (m : Meta) (roi : Roi) : res (list Z) :=
  c <- list_index AxisKey_eqb Kc (axistags m) ;;
  pop_at c (vminus (snd roi) (fst roi)).

(** Halo radius per spatial axis of a configured smoother. *)
Definition halo_radii (op : OpAnisotropicGaussianSmoothing.Op) : list Z :=
  map (fun o => match o with Some s => halo (2#1) s | None => 0 end)
      (OpAnisotropicGaussianSmoothing.spatial_sigma op).

(** A configured smoother on a 6 x 5 single-channel image. *)
Definition smoother_2d : OpAnisotropicGaussianSmoothing.Op :=
  OpAnisotropicGaussianSmoothing.mkOp
    (mkMeta [6; 5; 1] [Kx; Ky; Kc] uint8 (Some (0#1, 255#1)%Q))
    (mkMeta [6; 5; 1] [Kx; Ky; Kc] float32 (Some (0#1, 255#1)%Q))
    [(Kx, (1#1)%Q); (Ky, (3#2)%Q); (Kz, (1#1)%Q)].

Definition ramp : Slot Q :=
  mkSlot (mkMeta [6; 5; 1] [Kx; Ky; Kc] uint8 (Some (0#1, 255#1)%Q))
         (fun p => match p with
                   | [x; y; _] => inject_Z (x + y)
                   | _ => (0#1)%Q
                   end).

(** A stand-in kernel that returns its output view untouched. *)
Definition kernel_out (d : ndarray Q) (s : list (option Q)) (r : Roi)
  (out : ndarray Q) : ndarray Q := out.

(** A stand-in kernel that ignores data not tagged float32. *)
Definition kernel_float_only (d : ndarray Q) (s : list (option Q)) (r : Roi)
  (out : ndarray Q) : ndarray Q :=
  if Dtype_eqb (a_dtype d) float32 then out
  else mkArray (a_dtype d) [] [].

(** Every sigma of the operator is non-negative. *)
Definition sigmas_nonneg (op : OpAnisotropicGaussianSmoothing.Op) : Prop :=
  forall k v,
    OpAnisotropicGaussianSmoothing.dict_get
      (OpAnisotropicGaussianSmoothing._sigmas op) k = Some v -> (0 <= v)%Q.

(** The box [s, e) lies in the box [s', e'), axis by axis. *)
Fixpoint roi_sub (s e s' e' : list Z) : Prop :=
  match s, e, s', e' with
  | [], [], [], [] => True
  | a :: s1, b :: e1, a' :: s1', b' :: e1' =>
      a' <= a /\ b <= b' /\ roi_sub s1 e1 s1' e1'
  | _, _, _, _ => False
  end.

(** Pointwise order on index vectors of one rank. *)
Fixpoint vle (a b : list Z) : Prop :=
  match a, b with
  | [], [] => True
  | x :: a', y :: b' => x <= y /\ vle a' b'
  | _, _ => False
  end.

(** A configured smoother on a 12 x 12 single-channel image. *)
Definition smoother_wide : OpAnisotropicGaussianSmoothing.Op :=
  OpAnisotropicGaussianSmoothing.mkOp
    (mkMeta [12; 12; 1] [Kx; Ky; Kc] float32 None)
    (mkMeta [12; 12; 1] [Kx; Ky; Kc] float32 None)
    [(Kx, (1#1)%Q); (Ky, (3#2)%Q); (Kz, (1#1)%Q)].

(** A configured smoother on an image with a time axis. *)
Definition smoother_txyc : OpAnisotropicGaussianSmoothing.Op :=
  OpAnisotropicGaussianSmoothing.mkOp
    (mkMeta [3; 6; 5; 1] [Kt; Kx; Ky; Kc] uint8 None)
    (mkMeta [3; 6; 5; 1] [Kt; Kx; Ky; Kc] float32 None)
    [(Kx, (1#1)%Q); (Ky, (3#2)%Q); (Kz, (1#1)%Q)].

(** A configured smoother on an image without channel axis. *)
Definition smoother_xy : OpAnisotropicGaussianSmoothing.Op :=
  OpAnisotropicGaussianSmoothing.mkOp
    (mkMeta [6; 5] [Kx; Ky] uint8 None)
    (mkMeta [6; 5] [Kx; Ky] float32 None)
    [(Kx, (1#1)%Q); (Ky, (3#2)%Q); (Kz, (1#1)%Q)].

(** The images [two_components] and [one_seed] with other label values
    and the same foreground. *)
Definition two_components_relabelled : Slot Z :=
  mkSlot (meta two_components) (fun p => 5 * voxel two_components p).

Definition one_seed_relabelled : Slot Z :=
  mkSlot (meta one_seed) (fun p => 3 * voxel one_seed p).

(** A configured smoother whose channel axis is in the middle. *)
Definition smoother_ycx : OpAnisotropicGaussianSmoothing.Op :=
  OpAnisotropicGaussianSmoothing.mkOp
    (mkMeta [5; 1; 6] [Ky; Kc; Kx] uint8 (Some (0#1, 255#1)%Q))
    (mkMeta [5; 1; 6] [Ky; Kc; Kx] float32 (Some (0#1, 255#1)%Q))
    [(Kx, (1#1)%Q); (Ky, (3#2)%Q); (Kz, (1#1)%Q)].

(** A configured smoother on a 6 x 5 image with two channels. *)
Definition smoother_two_channels : OpAnisotropicGaussianSmoothing.Op :=
  OpAnisotropicGaussianSmoothing.mkOp
    (mkMeta [6; 5; 2] [Kx; Ky; Kc] uint8 (Some (0#1, 255#1)%Q))
    (mkMeta [6; 5; 2] [Kx; Ky; Kc] float32 (Some (0#1, 255#1)%Q))
    [(Kx, (1#1)%Q); (Ky, (3#2)%Q); (Kz, (1#1)%Q)].

(** A stand-in kernel that breaks the shape contract: whatever it is asked
    for, it returns a flat array with a single entry. *)
Definition kernel_flat (d : ndarray Q) (s : list (option Q)) (r : Roi)
  (out : ndarray Q) : ndarray Q := mkArray float32 [1] [(0#1)%Q].

End Spec.

(** * The inner graph of OpThresholdTwoLevels *)

Module Wiring.

(** The inner operators, in the order [__init__] constructs them. *)
Inductive InnerOp : Type :=
| opChannelSlicer | opSmoother | opLowThresholder | opHighThresholder
| opLowLabeler | opHighLabeler | opHighLabelSizeFilter | opSelectLabels
| opCache | opBigRegionCache | opSmallRegionCache
| opFilteredSmallLabelsCache | opColorizeSmallLabels.

Inductive SlotName : Type :=
| sInput | sSigmas | sMinLabelSize | sMaxLabelSize | sBigLabels | sSmallLabels
| sInputHdf5 | sOutput | sSlices.

(** What an inner input slot is connected to: an input slot of the
    composite operator itself or an output slot of an inner operator. *)
Inductive Source : Type :=
| FromSelf (s : OpThresholdTwoLevels.InSlot)
| FromOp (o : InnerOp) (s : SlotName).

(** Position of the constructor call in [__init__]. *)
Definition created (o : InnerOp) : nat :=
  match o with
  | opChannelSlicer => 0 | opSmoother => 1 | opLowThresholder => 2
  | opHighThresholder => 3 | opLowLabeler => 4 | opHighLabeler => 5
  | opHighLabelSizeFilter => 6 | opSelectLabels => 7 | opCache => 8
  | opBigRegionCache => 9 | opSmallRegionCache => 10
  | opFilteredSmallLabelsCache => 11 | opColorizeSmallLabels => 12
  end%nat.

(** The [connect] calls of [__init__] on inner input slots, in source
    order: destination operator, destination slot, source. *)
Definition init_connections : list (InnerOp * SlotName * Source) :=
  [ (opChannelSlicer, sInput, FromSelf OpThresholdTwoLevels.InputImage);
    (opSmoother, sSigmas, FromSelf OpThresholdTwoLevels.SmootherSigma);
    (opLowThresholder, sInput, FromOp opSmoother sOutput);
    (opHighThresholder, sInput, FromOp opSmoother sOutput);
    (opLowLabeler, sInput, FromOp opLowThresholder sOutput);
    (opHighLabeler, sInput, FromOp opHighThresholder sOutput);
    (opHighLabelSizeFilter, sInput, FromOp opHighLabeler sOutput);
    (opHighLabelSizeFilter, sMinLabelSize, FromSelf OpThresholdTwoLevels.MinSize);
    (opHighLabelSizeFilter, sMaxLabelSize, FromSelf OpThresholdTwoLevels.MaxSize);
    (opSelectLabels, sBigLabels, FromOp opLowLabeler sOutput);
    (opSelectLabels, sSmallLabels, FromOp opHighLabelSizeFilter sOutput);
    (opCache, sInputHdf5, FromSelf OpThresholdTwoLevels.InputHdf5);
    (opCache, sInput, FromOp opSelectLabels sOutput);
    (opBigRegionCache, sInput, FromOp opLowThresholder sOutput);
    (opSmallRegionCache, sInput, FromOp opHighThresholder sOutput);
    (opFilteredSmallLabelsCache, sInput, FromOp opHighLabelSizeFilter sOutput);
    (opColorizeSmallLabels, sInput, FromOp opFilteredSmallLabelsCache sOutput) ].

(** The connection [setupOutputs] adds: the smoother reads one of the
    channel slices. *)
Definition setup_connection : InnerOp * SlotName * Source :=
  (opSmoother, sInput, FromOp opChannelSlicer sSlices).

Definition all_connections : list (InnerOp * SlotName * Source) :=
  init_connections ++ [setup_connection].

(** [src] feeds [dst]: some input slot of [dst] is connected to an output
    slot of [src]. *)
Definition feeds (src dst : InnerOp) : Prop :=
  exists slot out, In (dst, slot, FromOp src out) all_connections.

Definition InnerOp_eqb (a b : InnerOp) : bool := (created a =? created b)%nat.

Definition SlotName_eqb (a b : SlotName) : bool :=
  match a, b with
  | sInput, sInput | sSigmas, sSigmas | sMinLabelSize, sMinLabelSize
  | sMaxLabelSize, sMaxLabelSize | sBigLabels, sBigLabels
  | sSmallLabels, sSmallLabels | sInputHdf5, sInputHdf5
  | sOutput, sOutput | sSlices, sSlices => true
  | _, _ => false
  end.

(** How many connections end in the given input slot. *)
Definition connected_times (o : InnerOp) (s : SlotName) : nat :=
  length (filter (fun c => InnerOp_eqb (fst (fst c)) o
                           && SlotName_eqb (snd (fst c)) s)
                 all_connections).

End Wiring.

(** * Verification *)

Import Spec.

(** ** Auxiliary facts on lists and shapes *)

Lemma shape_eqb_refl (s : list Z) : shape_eqb s s = true.
Proof.
  unfold shape_eqb. rewrite Nat.eqb_refl. simpl.
  induction s as [|x s IH]; simpl; [reflexivity|].
  now rewrite Z.eqb_refl.
Qed.

Lemma shape_eqb_eq (s t : list Z) : shape_eqb s t = true <-> s = t.
Proof.
  split; [|intros ->; apply shape_eqb_refl].
  unfold shape_eqb. revert t.
  induction s as [|x s IH]; intros [|y t]; simpl; try discriminate; auto.
  rewrite andb_true_iff. intros [Hl H].
  apply andb_true_iff in H as [Hx Ht]. apply Z.eqb_eq in Hx. subst y.
  f_equal. apply IH. now rewrite Hl, Ht.
Qed.

Lemma masked_product {I} (g h : I -> Z) (l : list I) :
  map (fun p : bool * Z => Z.b2z (fst p) * snd p)
      (combine (map (fun v => negb (v =? 0)) (map g l)) (map h l))
  = map (fun i => Z.b2z (negb (g i =? 0)) * h i) l.
Proof.
  induction l as [|i l IH]; simpl; [reflexivity|]. now rewrite IH.
Qed.

(** ** OpSelectLabels *)

Section SelectLabels.

Import OpSelectLabels.

Variable op : Op.
Variable roi : Roi.

Let start := fst roi.
Let stop := snd roi.
Let extent := vminus stop start.

(** The frame reached when the body has run to its end. *)
Lemma execute_frame_final (res0 : ndarray Z) :
  a_shape res0 = extent ->
  execute_frame op Output roi res0
  = inr (mkFrame None None
           (Some (ew1 bool_ (fun v => negb (v =? 0)) (fetch (small op) start stop)))
           (Some (fetch (big op) start stop))
           (Some (mkArray (dtype (meta (big op))) extent
                    (map (fun i => Z.b2z (negb (voxel (small op) (vplus start i) =? 0))
                                   * voxel (big op) (vplus start i))
                         (indices extent))))
           (mkArray (a_dtype res0) extent
              (map (fun i => select_voxel (voxel (small op) (vplus start i))
                                          (voxel (big op) (vplus start i)))
                   (indices extent)))
           [Fetch SmallLabels start stop []; Fetch BigLabels start stop []]).
Proof.
  intros Hs. unfold execute_frame, body, run, initial. simpl.
  unfold st_prod. simpl. unfold ew2. simpl.
  fold start stop extent. rewrite shape_eqb_refl. simpl.
  unfold st_store. simpl. unfold assign_all. simpl.
  rewrite Hs, shape_eqb_refl. simpl.
  rewrite masked_product, map_map. reflexivity.
Qed.

End SelectLabels.

Section SelectLabelsClaims.

Import OpSelectLabels.

Lemma select_voxel_cases (s b : Z) :
  0 <= b ->
  select_voxel s b = (if negb (s =? 0) && negb (b =? 0) then 1 else 0).
Proof.
  intros Hb. unfold select_voxel.
  destruct (Z.eqb_spec s 0) as [->|Hs]; simpl.
  - reflexivity.
  - destruct (Z.eqb_spec b 0) as [->|Hb0]; simpl; [reflexivity|].
    destruct b; simpl; try reflexivity; lia.
Qed.

(** C3. For every roi and every pair of label inputs, a request on the
    output of [OpSelectLabels] yields the uint8 array of the requested
    extent whose value at each voxel is [((small != 0) * big > 0)]; for
    label values (which are not negative) that value is 1 exactly where
    both the small and the big label are nonzero, and 0 everywhere
    else. *)
Theorem select_labels_voxelwise (op : Op) (roi : Roi) :
  request op roi
  = inr (mkArray uint8 (vminus (snd roi) (fst roi))
           (map (fun i => select_voxel (voxel (small op) (vplus (fst roi) i))
                                       (voxel (big op) (vplus (fst roi) i)))
                (indices (vminus (snd roi) (fst roi)))))
  /\ (forall s b : Z, 0 <= b ->
        (select_voxel s b = 1 <-> s <> 0 /\ b <> 0)
        /\ (select_voxel s b = 0 <-> ~ (s <> 0 /\ b <> 0))).
Proof.
  split.
  - unfold request, execute.
    rewrite execute_frame_final by reflexivity. reflexivity.
  - intros s b Hb. rewrite (select_voxel_cases s b Hb).
    destruct (Z.eqb_spec s 0), (Z.eqb_spec b 0); simpl; split; split;
      intros; try discriminate; try tauto; try lia.
Qed.

Lemma select_labels_voxelwise_witness :
  0 <= 2 /\ (select_voxel 5 2 = 1 <-> 5 <> 0 /\ 2 <> 0).
Proof.
  split; [lia|].
  apply (proj2 (select_labels_voxelwise
                  (mkOp one_seed two_components) whole_image) 5 2).
  lia.
Defined.

(** C1. On the image with components A and B and a small label on one
    voxel of A, the code marks only the voxel where the small label
    sits; the selection described by the docstring marks all four voxels
    of A.  Both leave B and the background at 0. *)
Theorem select_labels_marks_overlap_only :
  request (mkOp one_seed two_components) whole_image
  = inr (mkArray uint8 [3; 4] [1; 0; 0; 0;
                              0; 0; 0; 0;
                              0; 0; 0; 0])
  /\ select_components (a_data (fetch two_components [0; 0] [3; 4]))
                       (a_data (fetch one_seed [0; 0] [3; 4]))
     = [1; 1; 0; 0;
        1; 1; 0; 0;
        0; 0; 0; 0]
  /\ request (mkOp one_seed two_components) whole_image
     <> inr (mkArray uint8 [3; 4]
               (select_components (a_data (fetch two_components [0; 0] [3; 4]))
                                  (a_data (fetch one_seed [0; 0] [3; 4])))).
Proof.
  split; [reflexivity|]. split; [reflexivity|].
  intros H. vm_compute in H. discriminate H.
Qed.

Ltac run_body :=
  unfold st_prod, st_store, ew2, assign_all; simpl;
  rewrite ?shape_eqb_refl; simpl.

(** C4. In every invocation of [OpSelectLabels.execute] the small labels
    are fetched first and the big labels second, and when the big labels
    are requested no small label sub-volume is referenced any more.
    After every prefix of the body: once the big labels are held the
    small labels are not, and the boolean mask already exists; from the
    deletion on (four statements in) the small labels are never held
    again, and the big labels are not held before the fifth statement. *)
Theorem select_labels_fetch_order (op : Op) (roi : Roi) (res0 : ndarray Z) :
  a_shape res0 = vminus (snd roi) (fst roi) ->
  (exists f, execute_frame op Output roi res0 = inr f
             /\ trace f = [Fetch SmallLabels (fst roi) (snd roi) [];
                           Fetch BigLabels (fst roi) (snd roi) []])
  /\ forall n : nat,
      exists f, run (firstn n (body op roi)) (initial res0) = inr f
        /\ (In BigLabels (held f) ->
            ~ In SmallLabels (held f)
            /\ smallNonZero f
               = Some (ew1 bool_ (fun v => negb (v =? 0))
                           (fetch (small op) (fst roi) (snd roi))))
        /\ ((4 <= n)%nat -> ~ In SmallLabels (held f))
        /\ ((n < 5)%nat -> ~ In BigLabels (held f)).
Proof.
  intros Hs. split.
  - eexists. split; [apply execute_frame_final; exact Hs|reflexivity].
  - intros n.
    destruct n as [|[|[|[|[|[|[|n]]]]]]]; simpl firstn;
      try (destruct n; simpl firstn);
      (eexists; split; [unfold run, body, initial; run_body;
                        try rewrite Hs; run_body; reflexivity|]);
      unfold held; simpl; repeat split; intros; try lia; intuition discriminate.
Qed.

Lemma select_labels_fetch_order_witness :
  exists f, execute_frame (mkOp one_seed two_components) Output whole_image
              (allocateDestination 0
                 (setupOutputs (mkOp one_seed two_components)) [0; 0] [3; 4])
            = inr f
            /\ trace f = [Fetch SmallLabels [0; 0] [3; 4] [];
                          Fetch BigLabels [0; 0] [3; 4] []].
Proof.
  apply (select_labels_fetch_order (mkOp one_seed two_components) whole_image
           (allocateDestination 0
              (setupOutputs (mkOp one_seed two_components)) [0; 0] [3; 4])).
  reflexivity.
Defined.

End SelectLabelsClaims.

(** ** OpThresholdTwoLevels *)

Section ThresholdTwoLevels.

Import OpThresholdTwoLevels.

(** C9. [OpThresholdTwoLevels.execute] fails with its assertion for every
    slot, subindex, roi and destination; every output slot of the
    operator is connected to the output of an inner operator. *)
Theorem execute_never_computes :
  (forall (V : Type) (slot : OutSlot) (subindex : list nat) (roi : Roi)
          (result : ndarray V),
      execute slot subindex roi result = inl (AssertionError 324))
  /\ (forall slot : OutSlot, exists p, partner slot = Some p)
  /\ partner Output = Some opSelectLabels_Output
  /\ partner CachedOutput = Some opCache_Output.
Proof.
  split; [reflexivity|]. split; [|split; reflexivity].
  intros []; eexists; reflexivity.
Qed.

Lemma setupOutputs_rank_guard (inp : Inputs) :
  (length (shape (InputImage_meta inp)) <=? 4)%nat = true ->
  setupOutputs inp <> inl (AssertionError 291).
Proof.
  intros H. unfold setupOutputs. rewrite H. simpl.
  unfold tuple_get.
  destruct (nth_error _ _) as [n|]; simpl; [|discriminate].
  unfold Slices_index, seq_index.
  repeat (destruct (_ && _); simpl); discriminate.
Qed.

(** C10. Configuring [OpThresholdTwoLevels] with an input image of rank
    greater than 4 fails with the assertion of line 291, and with an
    input of rank at most 4 that assertion is never the outcome. *)
Theorem setupOutputs_rejects_5d (inp : Inputs) :
  ((4 < length (shape (InputImage_meta inp)))%nat ->
   setupOutputs inp = inl (AssertionError 291))
  /\ ((length (shape (InputImage_meta inp)) <= 4)%nat ->
      setupOutputs inp <> inl (AssertionError 291)).
Proof.
  split; intros H.
  - unfold setupOutputs.
    destruct (Nat.leb_spec (length (shape (InputImage_meta inp))) 4);
      [lia|reflexivity].
  - apply setupOutputs_rank_guard. now apply Nat.leb_le.
Qed.

Lemma setupOutputs_rejects_5d_witness :
  ((4 < length [2; 8; 8; 8; 3])%nat
   /\ setupOutputs (mkInputs (mkMeta [2; 8; 8; 8; 3] [Kt; Kx; Ky; Kz; Kc]
                                     float32 None) (1#2) (1#5) 0)
      = inl (AssertionError 291))
  /\ ((length [10; 10; 2] <= 4)%nat
      /\ setupOutputs two_channel_inputs <> inl (AssertionError 291)).
Proof.
  split; (split; [simpl; lia|]).
  - apply (proj1 (setupOutputs_rejects_5d
                    (mkInputs (mkMeta [2; 8; 8; 8; 3] [Kt; Kx; Ky; Kz; Kc]
                                      float32 None) (1#2) (1#5) 0))).
    simpl; lia.
  - apply (proj2 (setupOutputs_rejects_5d two_channel_inputs)).
    simpl; lia.
Defined.

(** How [setupOutputs] picks the channel slice, for an image of rank at
    most 4 whose channel axis holds [channels] entries. *)
Lemma setupOutputs_channel (inp : Inputs) (channels : Z) :
  (length (shape (InputImage_meta inp)) <= 4)%nat ->
  nth_error (shape (InputImage_meta inp))
            (axistags_index Kc (axistags (InputImage_meta inp))) = Some channels ->
  0 < channels ->
  (channels < Channel_value inp ->
   exists cfg, setupOutputs inp = inr cfg /\ smoother_slice cfg = O)
  /\ (0 <= Channel_value inp < channels ->
      exists cfg, setupOutputs inp = inr cfg
                  /\ smoother_slice cfg = Z.to_nat (Channel_value inp))
  /\ (Channel_value inp = channels -> setupOutputs inp = inl IndexError).
Proof.
  intros Hr Hn Hpos. apply Nat.leb_le in Hr.
  unfold setupOutputs. rewrite Hr. simpl. unfold tuple_get. rewrite Hn. simpl.
  unfold Slices_index, seq_index.
  repeat split; intros Hc.
  - destruct (Z.gtb_spec (Channel_value inp) channels); [|lia].
    destruct (Z.leb_spec 0 0); [|lia].
    destruct (Z.ltb_spec 0 channels); [|lia]. simpl.
    eexists; split; reflexivity.
  - destruct (Z.gtb_spec (Channel_value inp) channels); [lia|].
    destruct (Z.leb_spec 0 (Channel_value inp)); [|lia].
    destruct (Z.ltb_spec (Channel_value inp) channels); [|lia]. simpl.
    eexists; split; reflexivity.
  - rewrite Hc.
    destruct (Z.gtb_spec channels channels); [lia|].
    destruct (Z.leb_spec 0 channels); [|lia].
    destruct (Z.ltb_spec channels channels); [lia|].
    destruct (Z.ltb_spec channels 0); [lia|]. reflexivity.
Qed.

(** C7. With two channels in the input image and the channel parameter
    at 2 (one past the last channel) the parameter is not remapped: the
    lookup of the slice raises IndexError.  Channel 3 is remapped to
    slice 0, channel 1 is connected as it is. *)
Theorem channel_equal_to_count_not_remapped :
  setupOutputs two_channel_inputs = inl IndexError
  /\ (exists cfg,
         setupOutputs (mkInputs (InputImage_meta two_channel_inputs)
                                (1#2) (1#5) 3) = inr cfg
         /\ smoother_slice cfg = O)
  /\ (exists cfg,
         setupOutputs (mkInputs (InputImage_meta two_channel_inputs)
                                (1#2) (1#5) 1) = inr cfg
         /\ smoother_slice cfg = 1%nat).
Proof.
  split; [reflexivity|].
  split; eexists; split; reflexivity.
Qed.

Section Thresholds.

Variable fmul : Q -> Q -> Q.
Variable compare_as : Dtype -> Q -> Q.

Lemma binarized_above (thr : Q) (data : list Q) :
  binarized thr data (map of_bool (map (fun v => negb (Qle_bool v thr)) data)).
Proof.
  unfold binarized.
  induction data as [|v data IH]; simpl; constructor; [|exact IH].
  destruct (Qle_bool v thr) eqn:E; simpl.
  - right. split; [reflexivity|]. now apply Qle_bool_iff.
  - left. split; [reflexivity|].
    apply Qnot_le_lt. intros H. apply Qle_bool_iff in H. congruence.
Qed.

Lemma thresholdToUint8_against (m : Meta) (t thr : Q) (a : ndarray Q) :
  match drange m with
  | Some dr => Qeq_bool (fst dr) (0#1) = true
               /\ thr = compare_as (a_dtype a) (fmul t (snd dr))
  | None => thr = compare_as (a_dtype a) t
  end ->
  exists out,
    thresholdToUint8 fmul compare_as m t a = inr out
    /\ a_dtype out = uint8
    /\ a_shape out = a_shape a
    /\ binarized thr (a_data a) (a_data out).
Proof.
  intros H. unfold thresholdToUint8, gt_scalar.
  destruct (drange m) as [dr|].
  - destruct H as [H0 ->]. rewrite H0. simpl.
    destruct (Dtype_eqb (a_dtype a) uint8) eqn:E; simpl;
      eexists; (split; [reflexivity|]); simpl;
      (split; [|split; [reflexivity|apply binarized_above]]);
      [destruct (a_dtype a); (discriminate || reflexivity)|reflexivity].
  - subst thr. simpl.
    destruct (Dtype_eqb (a_dtype a) uint8) eqn:E; simpl;
      eexists; (split; [reflexivity|]); simpl;
      (split; [|split; [reflexivity|apply binarized_above]]);
      [destruct (a_dtype a); (discriminate || reflexivity)|reflexivity].
Qed.

(** C6 as amended.  The function bound into each threshold stage is
    [thresholdToUint8] at the configured low or high threshold.  When
    the smoothed output declares a display range whose lower bound is
    0, the array is binarized against the threshold multiplied by the
    upper bound of that range, the floating-point product being
    converted to the type in which numpy compares it with the array:
    uint8, 1 where the value strictly exceeds that number and 0
    elsewhere.  When no display range is declared the array is binarized
    against the (converted) threshold itself, and with a nonzero lower
    bound the assertion of line 307 fails. *)
Theorem threshold_scaled_by_drange (inp : Inputs) (cfg : Config) (m : Meta)
  (a : ndarray Q) :
  setupOutputs inp = inr cfg ->
  opLowThresholder_Function fmul compare_as cfg m a
  = thresholdToUint8 fmul compare_as m (LowThreshold_value inp) a
  /\ opHighThresholder_Function fmul compare_as cfg m a
     = thresholdToUint8 fmul compare_as m (HighThreshold_value inp) a
  /\ forall t : Q,
      (forall lo hi, drange m = Some (lo, hi) -> Qeq_bool lo (0#1) = true ->
         exists out, thresholdToUint8 fmul compare_as m t a = inr out
                     /\ a_dtype out = uint8 /\ a_shape out = a_shape a
                     /\ binarized (compare_as (a_dtype a) (fmul t hi))
                                  (a_data a) (a_data out))
      /\ (drange m = None ->
          exists out, thresholdToUint8 fmul compare_as m t a = inr out
                      /\ a_dtype out = uint8 /\ a_shape out = a_shape a
                      /\ binarized (compare_as (a_dtype a) t)
                                   (a_data a) (a_data out))
      /\ (forall lo hi, drange m = Some (lo, hi) -> Qeq_bool lo (0#1) = false ->
          thresholdToUint8 fmul compare_as m t a = inl (AssertionError 307)).
Proof.
  intros Hcfg.
  assert (Hb : low_bound cfg = LowThreshold_value inp
               /\ high_bound cfg = HighThreshold_value inp).
  { unfold setupOutputs in Hcfg.
    destruct (_ <=? _)%nat; simpl in Hcfg; [|discriminate].
    destruct (tuple_get _ _) as [e|n]; simpl in Hcfg; [discriminate|].
    destruct (Slices_index _ _) as [e|k]; simpl in Hcfg; [discriminate|].
    injection Hcfg as <-. split; reflexivity. }
  destruct Hb as [Hlo Hhi].
  unfold opLowThresholder_Function, opHighThresholder_Function.
  rewrite Hlo, Hhi. split; [reflexivity|]. split; [reflexivity|].
  intros t. repeat split.
  - intros lo hi Hd H0. apply thresholdToUint8_against.
    rewrite Hd. simpl. split; [exact H0|reflexivity].
  - intros Hd. apply thresholdToUint8_against. now rewrite Hd.
  - intros lo hi Hd H0. unfold thresholdToUint8. rewrite Hd. simpl.
    rewrite H0. reflexivity.
Qed.

End Thresholds.

Lemma threshold_scaled_by_drange_witness :
  exists out,
    thresholdToUint8 Qmult coarse_float32 (smoothed_meta (Some (0#1, 2#1)%Q))
                     (3#10) one_row
    = inr out
    /\ a_dtype out = uint8 /\ a_shape out = a_shape one_row
    /\ binarized (coarse_float32 float32 (Qmult (3#10) (2#1)))
                 (a_data one_row) (a_data out).
Proof.
  apply (proj1 (proj2 (proj2
           (threshold_scaled_by_drange Qmult coarse_float32
              (mkInputs (InputImage_meta two_channel_inputs) (1#2) (1#5) 1)
              (mkConfig 1 (1#5) (1#2)
                 (mkMeta [10; 10; 2] [Kx; Ky; Kc] uint32 (Some (0#1, 1#1)%Q)))
              (smoothed_meta (Some (0#1, 2#1)%Q)) one_row
              eq_refl)) (3#10)) (0#1)%Q (2#1)%Q); reflexivity.
Defined.

(** C6 as stated fails: it is not the case that for every threshold and
    every array the result is the array binarized against the threshold
    times the upper bound of the declared display range.  With the range
    (1, 2) the call raises, whatever the conversion of the threshold; with
    no range declared the comparison is against the threshold itself
    (3/4 passes the threshold 1/2). *)
Lemma threshold_not_always_scaled :
  ~ (forall (m : Meta) (t : Q) (a : ndarray Q) (lo hi : Q),
        drange m = Some (lo, hi) ->
        exists out, thresholdToUint8 Qmult (fun _ q => q) m t a = inr out
                    /\ binarized (Qmult t hi) (a_data a) (a_data out))
  /\ (forall compare_as,
        thresholdToUint8 Qmult compare_as (smoothed_meta (Some (1#1, 2#1)%Q))
                         (1#2) one_row
        = inl (AssertionError 307))
  /\ thresholdToUint8 Qmult (fun _ q => q) (smoothed_meta None) (1#2) one_row
     = inr (mkArray uint8 [4; 1] [(0#1)%Q; (1#1)%Q; (0#1)%Q; (1#1)%Q]).
Proof.
  split; [|split; [intros compare_as|]; reflexivity].
  intros H.
  destruct (H (smoothed_meta (Some (1#1, 2#1)%Q)) (1#2)%Q one_row (1#1)%Q (2#1)%Q
              eq_refl) as [out [Hout _]].
  discriminate Hout.
Qed.

End ThresholdTwoLevels.

(** ** OpAnisotropicGaussianSmoothing *)

Section SmoothingConfiguration.

Import OpAnisotropicGaussianSmoothing.

Lemma ensure_float32_dtype (tf : Q -> Q) (a : ndarray Q) :
  a_dtype (ensure_float32 tf a) = float32.
Proof.
  unfold ensure_float32.
  destruct (a_dtype a) eqn:E; simpl; try reflexivity. exact E.
Qed.

Lemma ensure_float32_fixed (tf : Q -> Q) (a : ndarray Q) :
  a_dtype a = float32 -> ensure_float32 tf a = a.
Proof. intros H. unfold ensure_float32. now rewrite H. Qed.

Lemma setupOutputs_out_meta (m : Meta) (s : SigmasValue) (op : Op) (d : Dirty) :
  setupOutputs m s = inr (op, d) ->
  in_meta op = m
  /\ out_meta op = mkMeta (shape m) (axistags m) float32 (drange m)
  /\ d = DirtyAll.
Proof.
  unfold setupOutputs. destruct s as [dict|]; simpl; [|discriminate].
  destruct (keys_are_xyz dict); simpl; [|discriminate].
  intros H. injection H as <- <-. repeat split.
Qed.

End SmoothingConfiguration.

(** ** Index vectors *)

Section Vectors.

Lemma vzip_zipw (f : Z -> Z -> Z) (a b : list Z) :
  length a = length b -> vzip f a b = inr (zipw f a b).
Proof.
  revert b. induction a as [|x a IH]; intros [|y b] H; simpl in *;
    try discriminate; try reflexivity.
  rewrite IH by congruence. reflexivity.
Qed.

Lemma zipw_length (f : Z -> Z -> Z) (a b : list Z) :
  length a = length b -> length (zipw f a b) = length a.
Proof.
  revert b. induction a as [|x a IH]; intros [|y b] H; simpl in *;
    try discriminate; try reflexivity.
  rewrite IH by congruence. reflexivity.
Qed.

Lemma zipw_offset_cancel (off s1 s0 : list Z) :
  length off = length s0 -> length s1 = length s0 ->
  zipw Z.sub (zipw Z.sub (zipw Z.add off s1) s0) off = zipw Z.sub s1 s0.
Proof.
  revert off s1. induction s0 as [|z s0 IH]; intros [|x off] [|y s1] H1 H2;
    simpl in *; try discriminate; try reflexivity.
  rewrite IH by congruence. f_equal. lia.
Qed.

Lemma pop_at_length {A} (c : nat) (l : list A) :
  (c < length l)%nat ->
  exists l', pop_at c l = inr l' /\ length l = S (length l').
Proof.
  revert l. induction c as [|c IH]; intros [|x l] H; simpl in *; try lia.
  - eexists; split; reflexivity.
  - destruct (IH l) as [l' [E L]]; [lia|]. rewrite E. simpl.
    eexists; split; [reflexivity|simpl; lia].
Qed.

Lemma pop_at_zipw (f : Z -> Z -> Z) (c : nat) (a b a' b' : list Z) :
  pop_at c a = inr a' -> pop_at c b = inr b' ->
  pop_at c (zipw f a b) = inr (zipw f a' b').
Proof.
  revert a b a' b'.
  induction c as [|c IH]; intros [|x a] [|y b] a' b'; simpl; try discriminate.
  - intros [= <-] [= <-]. reflexivity.
  - destruct (pop_at c a) as [|a1] eqn:Ea; simpl; try discriminate.
    destruct (pop_at c b) as [|b1] eqn:Eb; simpl; try discriminate.
    intros [= <-] [= <-]. rewrite (IH _ _ _ _ Ea Eb). reflexivity.
Qed.

Lemma pop_at_map {A B} (f : A -> B) (c : nat) (l l' : list A) :
  pop_at c l = inr l' -> pop_at c (map f l) = inr (map f l').
Proof.
  revert l l'. induction c as [|c IH]; intros [|x l] l'; simpl; try discriminate.
  - intros [= <-]. reflexivity.
  - destruct (pop_at c l) as [|l1] eqn:E; simpl; try discriminate.
    intros [= <-]. rewrite (IH _ _ E). reflexivity.
Qed.

Lemma pop_at_insert_at {A} (c : nat) (v : A) (l : list A) :
  (c <= length l)%nat -> pop_at c (insert_at c v l) = inr l.
Proof.
  revert l. induction c as [|c IH]; intros l H.
  - destruct l; reflexivity.
  - destruct l as [|x l]; simpl in *; [lia|].
    rewrite IH by lia. reflexivity.
Qed.

Lemma nth_error_insert_at {A} (c : nat) (v : A) (l : list A) :
  (c <= length l)%nat -> nth_error (insert_at c v l) c = Some v.
Proof.
  revert l. induction c as [|c IH]; intros l H.
  - destruct l; reflexivity.
  - destruct l as [|x l]; simpl in *; [lia|]. apply IH. lia.
Qed.

Lemma insert_at_length {A} (c : nat) (v : A) (l : list A) :
  length (insert_at c v l) = S (length l).
Proof.
  revert l. induction c as [|c IH]; intros [|x l]; simpl; try reflexivity.
  now rewrite IH.
Qed.

Lemma pop_at_last {A} (l : list A) :
  l <> [] -> pop_at (Nat.pred (length l)) l = inr (removelast l).
Proof.
  induction l as [|x l IH]; intros H; [congruence|].
  destruct l as [|y l]; [reflexivity|].
  change (Nat.pred (length (x :: y :: l))) with (S (Nat.pred (length (y :: l)))).
  cbn [pop_at]. rewrite IH by discriminate. reflexivity.
Qed.

Lemma inside_length (p a b : list Z) :
  inside p a b -> length p = length a /\ length p = length b.
Proof.
  revert a b. induction p as [|x p IH]; intros [|va a] [|vb b]; simpl;
    try tauto.
  intros [_ H]. destruct (IH _ _ H). split; congruence.
Qed.

Lemma inside_pop (c : nat) (p a b p' a' b' : list Z) :
  pop_at c p = inr p' -> pop_at c a = inr a' -> pop_at c b = inr b' ->
  inside p a b -> inside p' a' b'.
Proof.
  revert p a b p' a' b'.
  induction c as [|c IH]; intros [|x p] [|va a] [|vb b] p' a' b'; simpl;
    try discriminate.
  - intros [= <-] [= <-] [= <-] [_ H]. exact H.
  - destruct (pop_at c p) as [|p1] eqn:Ep; simpl; try discriminate.
    destruct (pop_at c a) as [|a1] eqn:Ea; simpl; try discriminate.
    destruct (pop_at c b) as [|b1] eqn:Eb; simpl; try discriminate.
    intros [= <-] [= <-] [= <-] [Hx H]. simpl. split; [exact Hx|].
    exact (IH _ _ _ _ _ _ Ep Ea Eb H).
Qed.

Lemma inside_nth (c : nat) (p a b : list Z) (x : Z) :
  inside p a b -> nth_error p c = Some x ->
  exists va vb, nth_error a c = Some va /\ nth_error b c = Some vb
                /\ va <= x < vb.
Proof.
  revert p a b.
  induction c as [|c IH]; intros [|y p] [|va a] [|vb b]; simpl;
    try tauto; try discriminate.
  - intros [Hx _] [= <-]. exists va, vb. auto.
  - intros [_ H] Hn. exact (IH _ _ _ H Hn).
Qed.

Lemma inside_insert (c : nat) (p a b p' : list Z) (x v w : Z) :
  pop_at c p = inr p' -> nth_error p c = Some x -> v <= x < w ->
  inside p' a b -> inside p (insert_at c v a) (insert_at c w b).
Proof.
  revert p a b p'.
  induction c as [|c IH]; intros [|y p] a b p'; simpl; try discriminate.
  - intros [= <-] [= <-] Hx H. destruct a, b; simpl; auto.
  - destruct (pop_at c p) as [|p1] eqn:Ep; simpl; try discriminate.
    intros [= <-] Hn Hx H.
    destruct a as [|va a], b as [|vb b]; simpl in H; try tauto.
    destruct H as [Hy H]. simpl. split; [exact Hy|].
    exact (IH _ _ _ _ Ep Hn Hx H).
Qed.

(** One halo serves both directions: a position whose halo-extended
    single-voxel roi meets a region lies in the halo extension of that
    region. *)
Lemma halo_covers (hs xs ps rs re shp : list Z) :
  length ps = length hs -> length rs = length hs ->
  length re = length hs -> length shp = length hs ->
  inside xs (map (fun v => Z.max v 0) (zipw Z.sub ps hs))
            (zipw Z.min (zipw Z.add (map Z.succ ps) hs) shp) ->
  inside xs rs re ->
  inside ps (map (fun _ => 0) shp) shp ->
  inside ps (map (fun v => Z.max v 0) (zipw Z.sub rs hs))
            (zipw Z.min (zipw Z.add re hs) shp).
Proof.
  revert xs ps rs re shp.
  induction hs as [|h hs IH]; intros [|x xs] [|p ps] [|a rs] [|b re] [|n shp];
    simpl; try discriminate; try tauto.
  intros L1 L2 L3 L4 [Hx Hxs] [Hr Hrs] [Hp Hps].
  split; [lia|]. apply (IH xs); auto.
Qed.

End Vectors.

(** ** Halo rois of the smoothing operator *)

Section SmoothingRois.

Import OpAnisotropicGaussianSmoothing.

Lemma supported_index (tags : list AxisKey) :
  supported_axes tags = true ->
  exists c, list_index AxisKey_eqb Kc tags = inr c /\ (c < length tags)%nat.
Proof.
  induction tags as [|k tags IH]; simpl; [discriminate|].
  destruct (AxisKey_eqb k Kc) eqn:E.
  - intros _. exists O. split; [reflexivity|lia].
  - rewrite andb_true_iff. intros [_ H].
    destruct (IH H) as [c [Ec Hc]]. rewrite Ec. simpl.
    exists (S c). split; [reflexivity|lia].
Qed.

Lemma spatial_tail_shape (tags : list AxisKey) (shp : list Z) :
  forallb in_xyz tags = true -> length shp = length tags ->
  map snd (filter (fun p => negb (AxisKey_eqb (fst p) Kc)) (combine tags shp))
  = shp.
Proof.
  revert shp. induction tags as [|k tags IH]; intros [|n shp]; simpl;
    try discriminate; try reflexivity.
  rewrite andb_true_iff. intros [Hk H] L.
  destruct k; simpl in *; try discriminate; rewrite IH by congruence;
    reflexivity.
Qed.

Lemma spatial_shape_pop (tags : list AxisKey) (shp : list Z) (c : nat) :
  supported_axes tags = true -> length shp = length tags ->
  list_index AxisKey_eqb Kc tags = inr c ->
  pop_at c shp
  = inr (map snd (filter (fun p => negb (AxisKey_eqb (fst p) Kc))
                         (combine tags shp))).
Proof.
  revert shp c. induction tags as [|k tags IH]; intros [|n shp] c; simpl;
    try discriminate.
  destruct (AxisKey_eqb k Kc) eqn:E; simpl.
  - intros H L [= <-]. simpl. rewrite spatial_tail_shape by congruence.
    reflexivity.
  - rewrite andb_true_iff. intros [_ H] L.
    destruct (list_index AxisKey_eqb Kc tags) as [|c'] eqn:Ec; simpl;
      try discriminate.
    intros [= <-]. simpl. rewrite (IH shp c') by congruence. reflexivity.
Qed.

Lemma spatial_keys (tags : list AxisKey) :
  supported_axes tags = true ->
  length tags = S (length (filter in_xyz tags)).
Proof.
  induction tags as [|k tags IH]; simpl; [discriminate|].
  destruct (AxisKey_eqb k Kc) eqn:E.
  - destruct k; try discriminate. simpl. intros H.
    f_equal. clear IH. induction tags as [|t tags IH]; simpl in *;
      [reflexivity|].
    apply andb_true_iff in H as [Ht H]. rewrite Ht. simpl. now rewrite <- IH.
  - rewrite andb_true_iff. intros [Hk H]. rewrite Hk. simpl.
    now rewrite <- IH.
Qed.

Lemma dict_get_present (d : list (AxisKey * Q)) (k : AxisKey) :
  existsb (fun p => AxisKey_eqb (fst p) k) d = true ->
  exists v, dict_get d k = Some v.
Proof.
  induction d as [|[k' v] d IH]; simpl; [discriminate|].
  destruct (AxisKey_eqb k' k); simpl; eauto.
Qed.

Lemma sigma_present (d : list (AxisKey * Q)) (k : AxisKey) :
  keys_are_xyz d = true -> in_xyz k = true -> exists v, dict_get d k = Some v.
Proof.
  unfold keys_are_xyz. rewrite andb_true_iff. intros [_ H] Hk.
  simpl in H. rewrite !andb_true_iff in H. destruct H as (Hx & Hy & Hz & _).
  destruct k; try discriminate; now apply dict_get_present.
Qed.

Lemma halos_present (d : list (AxisKey * Q)) (w : Q) (ks : list AxisKey) :
  keys_are_xyz d = true -> forallb in_xyz ks = true ->
  halos w (map (dict_get d) ks)
  = inr (map (fun o => match o with Some s => halo w s | None => 0 end)
             (map (dict_get d) ks)).
Proof.
  intros Hd. induction ks as [|k ks IH]; simpl; [reflexivity|].
  rewrite andb_true_iff. intros [Hk H].
  destruct (sigma_present d k Hd Hk) as [v ->].
  rewrite IH by exact H. reflexivity.
Qed.

Lemma filter_in_xyz_all (tags : list AxisKey) :
  forallb in_xyz (filter in_xyz tags) = true.
Proof.
  induction tags as [|k tags IH]; simpl; [reflexivity|].
  destruct (in_xyz k) eqn:E; simpl; [rewrite E|]; auto.
Qed.

(** What a well-formed operator fixes, independently of the roi: the
    position of the channel axis, the spatial shape and the radii. *)
Lemma operator_axes (op : Op) :
  well_formed op ->
  exists c shp',
    list_index AxisKey_eqb Kc (axistags (in_meta op)) = inr c
    /\ (c < length (axistags (in_meta op)))%nat
    /\ pop_at c (shape (in_meta op)) = inr shp'
    /\ spatial_shape (in_meta op) = shp'
    /\ halos (2#1) (spatial_sigma op) = inr (halo_radii op)
    /\ length (halo_radii op) = length shp'
    /\ length (axistags (in_meta op)) = S (length shp').
Proof.
  intros (_ & Hs & Hl & Hk & _).
  destruct (supported_index _ Hs) as [c [Ec Hc]].
  exists c, (spatial_shape (in_meta op)).
  pose proof (spatial_shape_pop _ _ c Hs Hl Ec) as Hp.
  assert (Hlen : length (axistags (in_meta op))
                 = S (length (spatial_shape (in_meta op)))).
  { destruct (pop_at_length c (shape (in_meta op))) as [l' [E L]]; [lia|].
    unfold spatial_shape. rewrite Hp in E. injection E as <-. lia. }
  repeat split; auto.
  - unfold spatial_sigma, halo_radii, spatial_sigma.
    apply halos_present; [exact Hk|apply filter_in_xyz_all].
  - unfold halo_radii, spatial_sigma. rewrite !length_map.
    pose proof (spatial_keys _ Hs). lia.
Qed.

(** The two rois computed for a roi of the right rank. *)
Lemma rois_explicit (op : Op) (roi : Roi) (c : nat) (shp' : list Z) :
  list_index AxisKey_eqb Kc (axistags (in_meta op)) = inr c ->
  spatial_shape (in_meta op) = shp' ->
  halos (2#1) (spatial_sigma op) = inr (halo_radii op) ->
  length (halo_radii op) = length shp' ->
  forall s0 s1,
    pop_at c (fst roi) = inr s0 -> pop_at c (snd roi) = inr s1 ->
    length s0 = length shp' -> length s1 = length shp' ->
    let lo := map (fun x => Z.max x 0) (zipw Z.sub s0 (halo_radii op)) in
    let hi := zipw Z.min (zipw Z.add s1 (halo_radii op)) shp' in
    _getInputComputeRois op roi
    = inr ((insert_at c 0 lo, insert_at c 1 hi),
           (zipw Z.sub s0 lo,
            zipw Z.sub (zipw Z.add (zipw Z.sub s0 lo) s1) s0)).
Proof.
  intros Ec Es Eh Lh s0 s1 E0 E1 L0 L1 lo hi.
  unfold _getInputComputeRois. rewrite Ec. simpl. rewrite E0, E1. simpl.
  unfold extendSlice. rewrite Es, Eh. simpl.
  unfold vsub, vadd.
  rewrite (vzip_zipw Z.sub s0 (halo_radii op)) by congruence. simpl.
  rewrite (vzip_zipw Z.add s1 (halo_radii op)) by congruence. simpl.
  rewrite (vzip_zipw Z.min _ shp')
    by (rewrite zipw_length; congruence). simpl.
  fold lo hi.
  assert (Llo : length lo = length s0).
  { unfold lo. rewrite length_map, zipw_length; congruence. }
  rewrite (vzip_zipw Z.sub s0 lo) by congruence. simpl.
  rewrite (vzip_zipw Z.add _ s1)
    by (rewrite zipw_length; congruence). simpl.
  rewrite (vzip_zipw Z.sub _ s0)
    by (rewrite !zipw_length; try rewrite zipw_length; congruence).
  reflexivity.
Qed.

End SmoothingRois.

Section SmoothingExecute.

Import OpAnisotropicGaussianSmoothing.

Lemma within_lengths (start stop shp : list Z) :
  within start stop shp ->
  length start = length shp /\ length stop = length shp.
Proof.
  revert stop shp. induction start as [|a start IH]; intros [|b stop] [|n shp];
    simpl; try tauto.
  intros (_ & _ & H). destruct (IH _ _ H). split; congruence.
Qed.

Lemma within_all_le (start stop shp : list Z) :
  within start stop shp -> all_le stop shp = true.
Proof.
  revert stop shp. induction start as [|a start IH]; intros [|b stop] [|n shp];
    simpl; try tauto.
  intros (_ & Hb & H). rewrite (IH _ _ H).
  destruct (Z.leb_spec b n); [reflexivity|lia].
Qed.

Lemma within_extent_last (start stop shp : list Z) :
  within start stop shp -> start <> [] ->
  0 < last (zipw Z.sub stop start) 0.
Proof.
  revert stop shp. induction start as [|a start IH]; intros [|b stop] [|n shp];
    simpl; try tauto; try congruence.
  intros (Ha & _ & H) _.
  destruct start as [|a' start].
  - destruct stop; simpl; lia.
  - destruct stop as [|b' stop]; [destruct shp; simpl in H; tauto|].
    specialize (IH _ _ H ltac:(discriminate)). simpl in IH. simpl. exact IH.
Qed.

Lemma view_last0_ok {V} (a : ndarray V) :
  a_shape a <> [] -> 0 < last (a_shape a) 0 ->
  view_last0 a
  = inr (mkArray (a_dtype a) (removelast (a_shape a))
                 (every_nth (Z.to_nat (last (a_shape a) 0)) 0 (a_data a))).
Proof.
  intros Hn Hl. unfold view_last0.
  destruct (a_shape a) as [|n sh] eqn:E; [congruence|].
  destruct (Z.leb_spec (last (n :: sh) 0) 0); [lia|reflexivity].
Qed.

Variable to_float32 : Q -> Q.
Variable k : ndarray Q -> list (option Q) -> Roi -> ndarray Q -> ndarray Q.
Variable op : Op.
Variable input : Slot Q.
Variable roi : Roi.
Variable result : ndarray Q.

Hypothesis Hwf : well_formed op.
Hypothesis Hroi : within (fst roi) (snd roi) (shape (in_meta op)).
Hypothesis Hres : a_shape result = vminus (snd roi) (fst roi).

(** [execute] on a well-formed operator, a non-empty roi within bounds
    and a destination of the roi's extent, with everything before the
    final assertion evaluated. *)
Lemma execute_unfolded :
  exists c s0 s1 iR cR out,
    list_index AxisKey_eqb Kc (axistags (in_meta op)) = inr c
    /\ pop_at c (vminus (snd roi) (fst roi)) = inr (zipw Z.sub s1 s0)
    /\ _getInputComputeRois op roi = inr (iR, cR)
    /\ vminus (snd cR) (fst cR) = zipw Z.sub s1 s0
    /\ view_last0 result = inr out
    /\ a_shape out = removelast (vminus (snd roi) (fst roi))
    /\ length (vminus (snd roi) (fst roi)) = length (axistags (in_meta op))
    /\ execute to_float32 k op input roi result
       = (assert 69
            (shape_eqb
               (a_shape (k (ensure_float32 to_float32
                              (fetch input (fst iR) (snd iR)))
                           (spatial_sigma op) cR out))
               (zipw Z.sub s1 s0)) ;;;
          ret (mkOutcome
                 (write_last0 result
                    (k (ensure_float32 to_float32
                          (fetch input (fst iR) (snd iR)))
                       (spatial_sigma op) cR out))
                 [iR])).
Proof.
  destruct (operator_axes op Hwf) as (c & shp' & Ec & Hc & Ep & Es & Eh & Lh & Lt).
  destruct (within_lengths _ _ _ Hroi) as [L0 L1].
  destruct Hwf as (_ & _ & Hl & _ & _).
  destruct (pop_at_length c (fst roi)) as [s0 [E0 Ls0]]; [lia|].
  destruct (pop_at_length c (snd roi)) as [s1 [E1 Ls1]]; [lia|].
  assert (Ls0' : length s0 = length shp') by lia.
  assert (Ls1' : length s1 = length shp') by lia.
  pose proof (rois_explicit op roi c shp' Ec Es Eh Lh s0 s1 E0 E1 Ls0' Ls1')
    as Er. cbv zeta in Er.
  set (lo := map (fun x => Z.max x 0) (zipw Z.sub s0 (halo_radii op))) in *.
  set (hi := zipw Z.min (zipw Z.add s1 (halo_radii op)) shp') in *.
  assert (Llo : length lo = length s0).
  { unfold lo. rewrite length_map, zipw_length; congruence. }
  assert (La : length (zipw Z.sub s0 lo) = length s0)
    by (apply zipw_length; congruence).
  assert (Lb : length (zipw Z.add (zipw Z.sub s0 lo) s1) = length s0)
    by (rewrite zipw_length; congruence).
  assert (Lc : length (zipw Z.sub (zipw Z.add (zipw Z.sub s0 lo) s1) s0)
               = length s0)
    by (rewrite zipw_length; congruence).
  assert (Hext : zipw Z.sub (zipw Z.sub (zipw Z.add (zipw Z.sub s0 lo) s1) s0)
                      (zipw Z.sub s0 lo)
                 = zipw Z.sub s1 s0).
  { apply zipw_offset_cancel; congruence. }
  assert (Hne : fst roi <> []).
  { intros E. rewrite E in L0. simpl in L0. lia. }
  assert (Lext : length (vminus (snd roi) (fst roi))
                 = length (axistags (in_meta op))).
  { unfold vminus. rewrite zipw_length; lia. }
  assert (Hview : view_last0 result
                  = inr (mkArray (a_dtype result)
                           (removelast (vminus (snd roi) (fst roi)))
                           (every_nth
                              (Z.to_nat (last (vminus (snd roi) (fst roi)) 0))
                              0 (a_data result)))).
  { rewrite view_last0_ok; rewrite Hres.
    - reflexivity.
    - intros E. rewrite E in Lext. simpl in Lext. lia.
    - apply (within_extent_last _ _ _ Hroi Hne). }
  eexists c, s0, s1, _, _, _.
  split; [exact Ec|]. split; [apply pop_at_zipw; assumption|].
  split; [exact Er|]. split; [exact Hext|].
  split; [exact Hview|]. split; [reflexivity|]. split; [exact Lext|].
  unfold execute.
  rewrite (within_all_le _ _ _ Hroi). simpl. rewrite Er. simpl.
  rewrite Hview. simpl. unfold vsub. rewrite vzip_zipw by congruence.
  rewrite Hext. reflexivity.
Qed.

(** C5 as amended.  For a well-formed smoothing operator, every non-empty
    roi within the bounds of its input and a destination of the roi's
    extent, [execute] calls the kernel once, on the converted data fetched
    over the input roi, and then: if the array the kernel produced has the
    requested extent (the extent of the roi without its channel entry),
    [execute] returns the destination filled through its channel-0 view,
    of shape [stop - start]; if it has any other shape, [execute] fails
    with the assertion of line 69.  With the channel axis last and a
    kernel that honours its shape contract the produced shape is the
    requested one, so [execute] returns. *)
Theorem execute_returns_requested_shape :
  exists iR cR out e,
    _getInputComputeRois op roi = inr (iR, cR)
    /\ view_last0 result = inr out
    /\ spatial_extent (in_meta op) roi = inr e
    /\ (a_shape (k (ensure_float32 to_float32 (fetch input (fst iR) (snd iR)))
                   (spatial_sigma op) cR out) = e ->
        exists o,
          execute to_float32 k op input roi result = inr o
          /\ returned o
             = write_last0 result
                 (k (ensure_float32 to_float32 (fetch input (fst iR) (snd iR)))
                    (spatial_sigma op) cR out)
          /\ a_shape (returned o) = vminus (snd roi) (fst roi))
    /\ (a_shape (k (ensure_float32 to_float32 (fetch input (fst iR) (snd iR)))
                   (spatial_sigma op) cR out) <> e ->
        execute to_float32 k op input roi result = inl (AssertionError 69))
    /\ (channel_last (in_meta op) -> kernel_contract k ->
        a_shape (k (ensure_float32 to_float32 (fetch input (fst iR) (snd iR)))
                   (spatial_sigma op) cR out) = e).
Proof.
  destruct execute_unfolded
    as (c & s0 & s1 & iR & cR & out
        & Ec & Epop & Er & Hext & Hview & Hout & Lext & Eexec).
  exists iR, cR, out, (zipw Z.sub s1 s0).
  split; [exact Er|]. split; [exact Hview|].
  split; [unfold spatial_extent; rewrite Ec; exact Epop|].
  split; [|split].
  - intros Hs. rewrite Eexec, Hs, shape_eqb_refl. simpl.
    eexists. split; [reflexivity|]. split; [reflexivity|]. exact Hres.
  - intros Hs. rewrite Eexec.
    destruct (shape_eqb _ _) eqn:E; [|reflexivity].
    apply shape_eqb_eq in E. contradiction.
  - intros Hlast Hk.
    assert (Hrem : removelast (vminus (snd roi) (fst roi)) = zipw Z.sub s1 s0).
    { unfold channel_last in Hlast. rewrite Ec in Hlast. injection Hlast as ->.
      rewrite <- Lext in Epop. rewrite pop_at_last in Epop.
      - now injection Epop.
      - intros E. rewrite E in Lext. simpl in Lext.
        destruct (operator_axes op Hwf) as (? & ? & _ & ? & _); lia. }
    rewrite Hk; [exact Hext|]. rewrite Hext, Hout. exact Hrem.
Qed.

End SmoothingExecute.

Lemma execute_returns_requested_shape_witness :
  (exists o,
      OpAnisotropicGaussianSmoothing.execute (fun q => q) kernel_out
        smoother_2d ramp ([1; 1; 0], [3; 4; 1])
        (allocateDestination (0#1)%Q
           (OpAnisotropicGaussianSmoothing.out_meta smoother_2d)
           [1; 1; 0] [3; 4; 1]) = inr o
      /\ a_shape (OpAnisotropicGaussianSmoothing.returned o)
         = vminus [3; 4; 1] [1; 1; 0])
  /\ OpAnisotropicGaussianSmoothing.execute (fun q => q) kernel_flat
       smoother_2d ramp ([1; 1; 0], [3; 4; 1])
       (allocateDestination (0#1)%Q
          (OpAnisotropicGaussianSmoothing.out_meta smoother_2d)
          [1; 1; 0] [3; 4; 1])
     = inl (AssertionError 69).
Proof.
  assert (Hwf : well_formed smoother_2d).
  { unfold well_formed. simpl. repeat split.
    repeat constructor; simpl; intuition discriminate. }
  assert (Hroi : within [1; 1; 0] [3; 4; 1] [6; 5; 1]) by (simpl; lia).
  split.
  - destruct (execute_returns_requested_shape (fun q => q) kernel_out
                smoother_2d ramp ([1; 1; 0], [3; 4; 1])
                (allocateDestination (0#1)%Q
                   (OpAnisotropicGaussianSmoothing.out_meta smoother_2d)
                   [1; 1; 0] [3; 4; 1]) Hwf Hroi eq_refl)
      as (iR & cR & out & e & _ & _ & _ & Hok & _ & Hshape).
    destruct (Hok (Hshape eq_refl (fun d s r o H => H))) as (o & Ho & _ & Hs).
    exists o. split; [exact Ho|exact Hs].
  - destruct (execute_returns_requested_shape (fun q => q) kernel_flat
                smoother_2d ramp ([1; 1; 0], [3; 4; 1])
                (allocateDestination (0#1)%Q
                   (OpAnisotropicGaussianSmoothing.out_meta smoother_2d)
                   [1; 1; 0] [3; 4; 1]) Hwf Hroi eq_refl)
      as (iR & cR & out & e & _ & _ & He & _ & Hbad & _).
    apply Hbad. injection He as <-. discriminate.
Defined.

(** C5 as stated fails: a well-formed operator whose channel axis is not
    the last one (axes y, c, x), a non-empty roi within bounds and a kernel
    that honours its shape contract; the channel-0 view of the destination
    has the extent (2, 1), the requested spatial extent is (2, 3), and the
    request ends in the assertion of line 69 instead of returning. *)
Lemma execute_fails_when_channel_not_last :
  well_formed smoother_ycx
  /\ within [1; 0; 1] [3; 1; 4]
            (shape (OpAnisotropicGaussianSmoothing.in_meta smoother_ycx))
  /\ kernel_contract kernel_out
  /\ OpAnisotropicGaussianSmoothing.request (fun q => q) kernel_out
       smoother_ycx ramp ([1; 0; 1], [3; 1; 4])
     = inl (AssertionError 69)
  /\ ~ (forall op roi,
          well_formed op ->
          within (fst roi) (snd roi)
                 (shape (OpAnisotropicGaussianSmoothing.in_meta op)) ->
          exists o,
            OpAnisotropicGaussianSmoothing.request (fun q => q) kernel_out
              op ramp roi = inr o
            /\ a_shape (OpAnisotropicGaussianSmoothing.returned o)
               = vminus (snd roi) (fst roi)).
Proof.
  assert (Hwf : well_formed smoother_ycx).
  { unfold well_formed. simpl. repeat split.
    repeat constructor; simpl; intuition discriminate. }
  assert (Hroi : within [1; 0; 1] [3; 1; 4] [5; 1; 6]) by (simpl; lia).
  split; [exact Hwf|]. split; [exact Hroi|].
  split; [intros d s r out H; exact H|]. split; [reflexivity|].
  intros H.
  destruct (H smoother_ycx ([1; 0; 1], [3; 1; 4]) Hwf Hroi) as (o & Ho & _).
  discriminate Ho.
Qed.

Section SmoothingConversion.

Import OpAnisotropicGaussianSmoothing.

(** C8. For every input metadata (so for every input element type) the
    configuration of [OpAnisotropicGaussianSmoothing] succeeds on a
    sigma dict with the keys x, y, z, and whenever it succeeds the output
    element type is float32, the rest of the metadata being the input's.
    Whenever [execute] returns, what it returns is the destination filled
    with the array the kernel produced from the data fetched over the
    input roi, and the kernel was given that data tagged float32: the
    fetched array itself when it is float32 already, and otherwise the
    array of the same shape whose elements went through the float32
    conversion.  On a well-formed operator with the channel axis last, a
    non-empty roi within bounds, a destination of the roi's extent and a
    kernel that honours its shape contract, [execute] does return. *)
Theorem smoothing_forces_float32 :
  (forall (m : Meta) (d : list (AxisKey * Q)),
      keys_are_xyz d = true ->
      setupOutputs m (SigDict d)
      = inr (mkOp m (mkMeta (shape m) (axistags m) float32 (drange m)) d,
             DirtyAll))
  /\ (forall (m : Meta) (s : SigmasValue) (op : Op) (d : Dirty),
         setupOutputs m s = inr (op, d) -> dtype (out_meta op) = float32)
  /\ (forall (tf : Q -> Q) k op input roi result o,
         execute tf k op input roi result = inr o ->
         exists iR cR out,
           _getInputComputeRois op roi = inr (iR, cR)
           /\ view_last0 result = inr out
           /\ let fetched := fetch input (fst iR) (snd iR) in
              let given :=
                if Dtype_eqb (a_dtype fetched) float32 then fetched
                else mkArray float32 (a_shape fetched)
                             (map tf (a_data fetched)) in
              a_dtype given = float32
              /\ returned o
                 = write_last0 result (k given (spatial_sigma op) cR out))
  /\ (forall (tf : Q -> Q) k op input roi result,
         well_formed op ->
         within (fst roi) (snd roi) (shape (in_meta op)) ->
         a_shape result = vminus (snd roi) (fst roi) ->
         channel_last (in_meta op) ->
         kernel_contract k ->
         exists o, execute tf k op input roi result = inr o).
Proof.
  split; [|split; [|split]].
  - intros m d H. unfold setupOutputs. simpl. now rewrite H.
  - intros m s op d H. apply setupOutputs_out_meta in H as (_ & -> & _).
    reflexivity.
  - intros tf k op input roi result o. unfold execute.
    destruct (assert 49 _) as [e|u]; simpl; [discriminate|].
    destruct (_getInputComputeRois op roi) as [e|[iR cR]]; simpl;
      [discriminate|].
    destruct (view_last0 result) as [e|out]; simpl; [discriminate|].
    destruct (vsub _ _) as [e|ex]; simpl; [discriminate|].
    destruct (assert 69 _) as [e|u']; simpl; [discriminate|].
    intros [= <-]. exists iR, cR, out.
    split; [reflexivity|]. split; [reflexivity|]. cbv zeta.
    unfold ensure_float32, astype_float32. cbn [returned].
    change (a_dtype (fetch input (fst iR) (snd iR)))
      with (dtype (meta input)).
    destruct (dtype (meta input)) eqn:Ed; simpl; rewrite ?Ed;
      split; reflexivity.
  - intros tf k op input roi result Hwf Hroi Hres Hlast Hk.
    destruct (execute_unfolded tf k op input roi result Hwf Hroi Hres)
      as (c & s0 & s1 & iR & cR & out
          & Ec & Epop & Er & Hext & Hview & Hout & Lext & Eexec).
    assert (Hrem : removelast (vminus (snd roi) (fst roi)) = zipw Z.sub s1 s0).
    { unfold channel_last in Hlast. rewrite Ec in Hlast. injection Hlast as ->.
      rewrite <- Lext in Epop. rewrite pop_at_last in Epop.
      - now injection Epop.
      - intros E. rewrite E in Lext. simpl in Lext.
        destruct (operator_axes op Hwf) as (? & ? & _ & ? & _); lia. }
    rewrite Eexec, Hk by (rewrite Hext, Hout; exact Hrem).
    rewrite Hext, shape_eqb_refl. simpl. eexists. reflexivity.
Qed.

End SmoothingConversion.

Lemma smoothing_forces_float32_witness :
  dtype (OpAnisotropicGaussianSmoothing.out_meta smoother_2d) = float32
  /\ exists o iR cR out,
      OpAnisotropicGaussianSmoothing.execute (fun q => q) kernel_out
        smoother_2d ramp ([1; 1; 0], [3; 4; 1])
        (allocateDestination (0#1)%Q
           (OpAnisotropicGaussianSmoothing.out_meta smoother_2d)
           [1; 1; 0] [3; 4; 1]) = inr o
      /\ OpAnisotropicGaussianSmoothing._getInputComputeRois smoother_2d
           ([1; 1; 0], [3; 4; 1]) = inr (iR, cR)
      /\ a_dtype (fetch ramp (fst iR) (snd iR)) = uint8
      /\ OpAnisotropicGaussianSmoothing.returned o
         = OpAnisotropicGaussianSmoothing.write_last0
             (allocateDestination (0#1)%Q
                (OpAnisotropicGaussianSmoothing.out_meta smoother_2d)
                [1; 1; 0] [3; 4; 1])
             (kernel_out
                (mkArray float32 (a_shape (fetch ramp (fst iR) (snd iR)))
                         (map (fun q => q)
                              (a_data (fetch ramp (fst iR) (snd iR)))))
                (OpAnisotropicGaussianSmoothing.spatial_sigma smoother_2d)
                cR out).
Proof.
  destruct smoothing_forces_float32 as (_ & Hcfg & Hconv & Hret).
  split.
  - apply (Hcfg (OpAnisotropicGaussianSmoothing.in_meta smoother_2d)
             (OpAnisotropicGaussianSmoothing.SigDict
                (OpAnisotropicGaussianSmoothing._sigmas smoother_2d))
             smoother_2d OpAnisotropicGaussianSmoothing.DirtyAll).
    reflexivity.
  - destruct (Hret (fun q => q) kernel_out smoother_2d ramp
                ([1; 1; 0], [3; 4; 1])
                (allocateDestination (0#1)%Q
                   (OpAnisotropicGaussianSmoothing.out_meta smoother_2d)
                   [1; 1; 0] [3; 4; 1])) as [o Ho].
    + unfold well_formed. simpl. repeat split.
      repeat constructor; simpl; intuition discriminate.
    + simpl. lia.
    + reflexivity.
    + reflexivity.
    + intros d s r out H. exact H.
    + destruct (Hconv _ _ _ _ _ _ o Ho) as (iR & cR & out & Er & _ & _ & Hr).
      exists o, iR, cR, out. split; [exact Ho|]. split; [exact Er|].
      split; [reflexivity|exact Hr].
Defined.

Section SmoothingDirty.

Import OpAnisotropicGaussianSmoothing.

Lemma execute_requested (tf : Q -> Q) k (op : Op) (input : Slot Q) (r : Roi)
  (result : ndarray Q) (o : Outcome) (inputRoi computeRoi : Roi) :
  _getInputComputeRois op r = inr (inputRoi, computeRoi) ->
  execute tf k op input r result = inr o -> requested o = [inputRoi].
Proof.
  intros Er. unfold execute. rewrite Er.
  destruct (assert 49 _) as [e|u]; simpl; [discriminate|].
  destruct (view_last0 result) as [e|out]; simpl; [discriminate|].
  destruct (vsub _ _) as [e|ex]; simpl; [discriminate|].
  destruct (assert 69 _) as [e|u']; simpl; [discriminate|].
  intros [= <-]. reflexivity.
Qed.

Lemma dirty_covers_readers (op : Op) (r : Roi) :
  well_formed op ->
  channel_extent (in_meta op) = Some 1 ->
  length (fst r) = length (axistags (in_meta op)) ->
  length (snd r) = length (axistags (in_meta op)) ->
  exists ds de,
    propagateDirty op Input r = inr (DirtyRoi ds de)
    /\ forall p, in_shape p (shape (in_meta op)) ->
         exists inRoi cRoi,
           _getInputComputeRois op (voxel_roi p) = inr (inRoi, cRoi)
           /\ (intersects inRoi r -> inside p ds de).
Proof.
  intros Hwf Hch Lr0 Lr1.
  destruct (operator_axes op Hwf) as (c & shp' & Ec & Hc & Ep & Es & Eh & Lh & Lt).
  destruct Hwf as (_ & _ & Hl & _ & _).
  destruct (pop_at_length c (fst r)) as [rs0 [Ers Lrs]]; [lia|].
  destruct (pop_at_length c (snd r)) as [re0 [Ere Lre]]; [lia|].
  pose proof (rois_explicit op r c shp' Ec Es Eh Lh rs0 re0 Ers Ere
                ltac:(lia) ltac:(lia)) as Er.
  cbv zeta in Er.
  set (hs := halo_radii op) in *.
  eexists _, _. split.
  { unfold propagateDirty. rewrite Er. simpl. reflexivity. }
  intros p Hp.
  destruct (inside_length _ _ _ Hp) as [_ Lp].
  destruct (pop_at_length c p) as [p0 [Ep0 Lp0]]; [lia|].
  pose proof (pop_at_map Z.succ c p p0 Ep0) as Ep1.
  pose proof (rois_explicit op (voxel_roi p) c shp' Ec Es Eh Lh p0
                (map Z.succ p0) Ep0 Ep1 ltac:(lia)
                ltac:(rewrite length_map; lia)) as Epr.
  cbv zeta in Epr. fold hs in Epr.
  eexists _, _. split; [exact Epr|]. simpl.
  intros [x [Hx Hxr]]. cbn [fst snd] in Hx.
  assert (Llo : length (map (fun v => Z.max v 0) (zipw Z.sub p0 hs))
                = length p0)
    by (rewrite length_map, zipw_length; lia).
  destruct (inside_length _ _ _ Hx) as [Lx _].
  rewrite insert_at_length in Lx.
  destruct (pop_at_length c x) as [x0 [Ex0 Lx0]]; [lia|].
  assert (Hx0 : inside x0 (map (fun v => Z.max v 0) (zipw Z.sub p0 hs))
                  (zipw Z.min (zipw Z.add (map Z.succ p0) hs) shp')).
  { refine (inside_pop c _ _ _ _ _ _ Ex0 _ _ Hx); apply pop_at_insert_at.
    - lia.
    - rewrite zipw_length; rewrite zipw_length; rewrite ?length_map; lia. }
  pose proof (inside_pop c _ _ _ _ _ _ Ex0 Ers Ere Hxr) as Hxr0.
  assert (Hp0 : inside p0 (map (fun _ => 0) shp') shp').
  { unfold in_shape in Hp.
    exact (inside_pop c _ _ _ _ _ _ Ep0
             (pop_at_map (fun _ => 0) c _ _ Ep) Ep Hp). }
  pose proof (halo_covers hs x0 p0 rs0 re0 shp' ltac:(lia) ltac:(lia)
                ltac:(lia) ltac:(lia) Hx0 Hxr0 Hp0) as Hcov.
  destruct (nth_error p c) as [pc|] eqn:Epc;
    [|apply nth_error_None in Epc; lia].
  destruct (inside_nth c _ _ _ pc Hp Epc) as (va & vb & Hva & Hvb & Hrange).
  unfold channel_extent in Hch. rewrite Ec in Hch.
  rewrite Hch in Hvb. injection Hvb as <-.
  rewrite nth_error_map in Hva.
  rewrite Hch in Hva. simpl in Hva. injection Hva as <-.
  exact (inside_insert c p _ _ p0 pc 0 1 Ep0 Epc Hrange Hcov).
Qed.

(** C2 as amended.  For every roi [r]: the region [propagateDirty] marks
    dirty on the output when the data input is dirtied over [r] is the
    input roi that [_getInputComputeRois] yields for [r], the very roi
    [execute] requests from its input for the output roi [r] (and the two
    fail alike).  For a well-formed operator over a single-channel input
    the dirty region contains every output position whose computation
    requests input data inside [r]. *)
Theorem dirty_region_is_fetch_region (op : Op) (r : Roi) :
  (forall inputRoi computeRoi,
      _getInputComputeRois op r = inr (inputRoi, computeRoi) ->
      propagateDirty op Input r
      = inr (DirtyRoi (fst inputRoi) (snd inputRoi))
      /\ forall tf k input result o,
          execute tf k op input r result = inr o ->
          requested o = [inputRoi])
  /\ (forall e, _getInputComputeRois op r = inl e ->
                propagateDirty op Input r = inl e)
  /\ (well_formed op ->
      channel_extent (in_meta op) = Some 1 ->
      length (fst r) = length (axistags (in_meta op)) ->
      length (snd r) = length (axistags (in_meta op)) ->
      exists ds de,
        propagateDirty op Input r = inr (DirtyRoi ds de)
        /\ forall p, in_shape p (shape (in_meta op)) ->
             exists inRoi cRoi,
               _getInputComputeRois op (voxel_roi p) = inr (inRoi, cRoi)
               /\ (intersects inRoi r -> inside p ds de)).
Proof.
  split; [|split].
  - intros inputRoi computeRoi Er. split.
    + unfold propagateDirty. rewrite Er. reflexivity.
    + intros tf k input result o. now apply execute_requested with computeRoi.
  - intros e Er. unfold propagateDirty. rewrite Er. reflexivity.
  - apply dirty_covers_readers.
Qed.

End SmoothingDirty.

Lemma dirty_region_is_fetch_region_witness :
  OpAnisotropicGaussianSmoothing.propagateDirty smoother_2d
    OpAnisotropicGaussianSmoothing.Input ([2; 1; 0], [3; 2; 1])
  = inr (OpAnisotropicGaussianSmoothing.DirtyRoi [0; 0; 0] [5; 5; 1])
  /\ exists ds de,
      OpAnisotropicGaussianSmoothing.propagateDirty smoother_2d
        OpAnisotropicGaussianSmoothing.Input ([2; 1; 0], [3; 2; 1])
      = inr (OpAnisotropicGaussianSmoothing.DirtyRoi ds de)
      /\ forall p, in_shape p [6; 5; 1] ->
           exists inRoi cRoi,
             OpAnisotropicGaussianSmoothing._getInputComputeRois smoother_2d
               (voxel_roi p) = inr (inRoi, cRoi)
             /\ (intersects inRoi ([2; 1; 0], [3; 2; 1]) -> inside p ds de).
Proof.
  split.
  - apply (proj1 (dirty_region_is_fetch_region smoother_2d ([2; 1; 0], [3; 2; 1]))
             ([0; 0; 0], [5; 5; 1]) ([2; 1], [3; 2])).
    reflexivity.
  - apply (proj2 (proj2 (dirty_region_is_fetch_region smoother_2d
                           ([2; 1; 0], [3; 2; 1])))).
    + unfold well_formed. simpl. repeat split.
      repeat constructor; simpl; intuition discriminate.
    + reflexivity.
    + reflexivity.
    + reflexivity.
Defined.

(** C2 as stated fails on an input with more than one channel: with two
    channels, dirtying the data over [r] marks the region
    [0;0;0]..[5;5;1] dirty; the output position [2;1;1] lies in the output
    and its recomputation requests the input roi [0;0;0]..[5;5;1], which
    meets [r], yet the position is outside the dirty region. *)
Lemma dirty_region_misses_other_channels :
  OpAnisotropicGaussianSmoothing.propagateDirty smoother_two_channels
    OpAnisotropicGaussianSmoothing.Input ([2; 1; 0], [3; 2; 1])
  = inr (OpAnisotropicGaussianSmoothing.DirtyRoi [0; 0; 0] [5; 5; 1])
  /\ in_shape [2; 1; 1] [6; 5; 2]
  /\ OpAnisotropicGaussianSmoothing._getInputComputeRois smoother_two_channels
       (voxel_roi [2; 1; 1])
     = inr (([0; 0; 0], [5; 5; 1]), ([2; 1], [3; 2]))
  /\ intersects ([0; 0; 0], [5; 5; 1]) ([2; 1; 0], [3; 2; 1])
  /\ ~ inside [2; 1; 1] [0; 0; 0] [5; 5; 1]
  /\ ~ (forall op r ds de p iR cR,
          well_formed op ->
          OpAnisotropicGaussianSmoothing.propagateDirty op
            OpAnisotropicGaussianSmoothing.Input r
          = inr (OpAnisotropicGaussianSmoothing.DirtyRoi ds de) ->
          in_shape p (shape (OpAnisotropicGaussianSmoothing.in_meta op)) ->
          OpAnisotropicGaussianSmoothing._getInputComputeRois op (voxel_roi p)
          = inr (iR, cR) ->
          intersects iR r ->
          inside p ds de).
Proof.
  assert (Hin : in_shape [2; 1; 1] [6; 5; 2])
    by (unfold in_shape; simpl; lia).
  assert (Hx : intersects ([0; 0; 0], [5; 5; 1]) ([2; 1; 0], [3; 2; 1]))
    by (exists [2; 1; 0]; simpl; lia).
  assert (Hout : ~ inside [2; 1; 1] [0; 0; 0] [5; 5; 1])
    by (simpl; lia).
  split; [reflexivity|]. split; [exact Hin|]. split; [reflexivity|].
  split; [exact Hx|]. split; [exact Hout|].
  intros H. apply Hout.
  apply (H smoother_two_channels ([2; 1; 0], [3; 2; 1]) [0; 0; 0] [5; 5; 1]
           [2; 1; 1] ([0; 0; 0], [5; 5; 1]) ([2; 1], [3; 2])).
  - unfold well_formed. simpl. repeat split.
    repeat constructor; simpl; intuition discriminate.
  - reflexivity.
  - exact Hin.
  - reflexivity.
  - exact Hx.
Qed.

(** * Further properties of the operators *)

(** ** Geometry of the halo rois *)

Section HaloGeometry.

Import OpAnisotropicGaussianSmoothing.

Lemma zipw_add_sub_cancel (lo s0 : list Z) :
  length lo = length s0 -> zipw Z.add lo (zipw Z.sub s0 lo) = s0.
Proof.
  revert s0. induction lo as [|x lo IH]; intros [|y s0] H; simpl in *;
    try discriminate; try reflexivity.
  rewrite IH by congruence. f_equal. lia.
Qed.

Lemma zipw_add_stop_cancel (lo s0 s1 : list Z) :
  length lo = length s0 -> length s1 = length s0 ->
  zipw Z.add lo (zipw Z.sub (zipw Z.add (zipw Z.sub s0 lo) s1) s0) = s1.
Proof.
  revert s0 s1. induction lo as [|x lo IH]; intros [|y s0] [|z s1] H1 H2;
    simpl in *; try discriminate; try reflexivity.
  rewrite IH by congruence. f_equal. lia.
Qed.

Lemma vzip_length (f : Z -> Z -> Z) (a b r : list Z) :
  vzip f a b = inr r -> length a = length b.
Proof.
  revert b r. induction a as [|x a IH]; intros [|y b] r; simpl;
    try discriminate; try reflexivity.
  destruct (vzip f a b) as [|r'] eqn:E; simpl; [discriminate|].
  intros _. f_equal. exact (IH _ _ E).
Qed.

Lemma halos_length (w : Q) (sg : list (option Q)) (h : list Z) :
  halos w sg = inr h -> length h = length sg.
Proof.
  revert h. induction sg as [|[s|] sg IH]; intros h; simpl.
  - intros [= <-]. reflexivity.
  - destruct (halos w sg) as [|h'] eqn:E; simpl; [discriminate|].
    intros [= <-]. simpl. f_equal. exact (IH _ eq_refl).
  - discriminate.
Qed.

Lemma pop_at_inr_length {A} (c : nat) (l l' : list A) :
  pop_at c l = inr l' -> length l = S (length l').
Proof.
  revert l l'. induction c as [|c IH]; intros [|x l] l'; simpl; try discriminate.
  - intros [= <-]. reflexivity.
  - destruct (pop_at c l) as [|l1] eqn:E; simpl; [discriminate|].
    intros [= <-]. simpl. f_equal. exact (IH _ _ E).
Qed.

(** The halo radius of a non-negative sigma is non-negative. *)
Lemma halo_nonneg (s : Q) : (0 <= s)%Q -> 0 <= halo (2#1) s.
Proof.
  intros H. unfold halo.
  change 0 with (Qceiling (inject_Z 0)) at 1.
  - apply Qceiling_resp_le. change (inject_Z 0) with (0#1)%Q.
    apply Qmult_le_0_compat; [discriminate|exact H].
Qed.

Lemma halo_radii_nonneg (op : Op) :
  sigmas_nonneg op -> Forall (fun h => 0 <= h) (halo_radii op).
Proof.
  intros Hs. unfold halo_radii, spatial_sigma.
  induction (filter in_xyz (axistags (in_meta op))) as [|k ks IH]; simpl;
    constructor; [|exact IH].
  destruct (dict_get (_sigmas op) k) as [v|] eqn:E; [|lia].
  apply halo_nonneg. exact (Hs k v E).
Qed.

End HaloGeometry.

Section HaloInversion.

Import OpAnisotropicGaussianSmoothing.

Lemma vzip_inr (f : Z -> Z -> Z) (a b r : list Z) :
  vzip f a b = inr r -> length a = length b /\ r = zipw f a b.
Proof.
  intros H. pose proof (vzip_length f a b r H) as L.
  rewrite (vzip_zipw f a b L) in H. injection H as <-. auto.
Qed.

Lemma pop_at_inr_bound {A} (c : nat) (l l' : list A) :
  pop_at c l = inr l' -> (c <= length l')%nat.
Proof.
  revert l l'. induction c as [|c IH]; intros [|x l] l'; simpl; try discriminate.
  - intros _. lia.
  - destruct (pop_at c l) as [|l1] eqn:E; simpl; [discriminate|].
    intros [= <-]. simpl. specialize (IH _ _ E). lia.
Qed.

Lemma extendSlice_inr (s0 s1 shp : list Z) (sg : list (option Q)) (w : Q)
  (n0 n1 : list Z) :
  extendSlice s0 s1 shp sg w = inr (n0, n1) ->
  exists h,
    halos w sg = inr h
    /\ length h = length s0 /\ length s1 = length s0 /\ length shp = length s0
    /\ n0 = map (fun x => Z.max x 0) (zipw Z.sub s0 h)
    /\ n1 = zipw Z.min (zipw Z.add s1 h) shp.
Proof.
  unfold extendSlice.
  destruct (halos w sg) as [|h] eqn:Eh; simpl; [discriminate|].
  destruct (vsub s0 h) as [|lo] eqn:Elo; simpl; [discriminate|].
  destruct (vadd s1 h) as [|hi] eqn:Ehi; simpl; [discriminate|].
  destruct (vzip Z.min hi shp) as [|ns] eqn:Ens; simpl; [discriminate|].
  intros [= <- <-].
  apply vzip_inr in Elo as [L0 ->]. apply vzip_inr in Ehi as [L1 ->].
  apply vzip_inr in Ens as [L2 ->].
  rewrite zipw_length in L2 by congruence.
  exists h. repeat split; congruence.
Qed.

(** Everything a successful call of [_getInputComputeRois] went through. *)
Lemma rois_inversion (op : Op) (roi iR cR : Roi) :
  _getInputComputeRois op roi = inr (iR, cR) ->
  exists c s0 s1 h,
    list_index AxisKey_eqb Kc (axistags (in_meta op)) = inr c
    /\ pop_at c (fst roi) = inr s0 /\ pop_at c (snd roi) = inr s1
    /\ halos (2#1) (spatial_sigma op) = inr h
    /\ length h = length s0 /\ length s1 = length s0
    /\ length (spatial_shape (in_meta op)) = length s0
    /\ (c <= length s0)%nat
    /\ iR = (insert_at c 0 (map (fun x => Z.max x 0) (zipw Z.sub s0 h)),
             insert_at c 1 (zipw Z.min (zipw Z.add s1 h)
                                       (spatial_shape (in_meta op))))
    /\ cR = (zipw Z.sub s0 (map (fun x => Z.max x 0) (zipw Z.sub s0 h)),
             zipw Z.sub
               (zipw Z.add
                  (zipw Z.sub s0 (map (fun x => Z.max x 0) (zipw Z.sub s0 h)))
                  s1) s0).
Proof.
  unfold _getInputComputeRois.
  destruct (list_index _ _ _) as [|c] eqn:Ec; simpl; [discriminate|].
  destruct (pop_at c (fst roi)) as [|s0] eqn:E0; simpl; [discriminate|].
  destruct (pop_at c (snd roi)) as [|s1] eqn:E1; simpl; [discriminate|].
  destruct (extendSlice _ _ _ _ _) as [|[n0 n1]] eqn:Ee; simpl; [discriminate|].
  destruct (vsub s0 n0) as [|off] eqn:Eo; simpl; [discriminate|].
  destruct (vadd off s1) as [|t] eqn:Et; simpl; [discriminate|].
  destruct (vsub t s0) as [|cs] eqn:Es; simpl; [discriminate|].
  intros [= <- <-].
  apply extendSlice_inr in Ee as (h & Eh & Lh & L1 & Ls & -> & ->).
  apply vzip_inr in Eo as [_ ->]. apply vzip_inr in Et as [_ ->].
  apply vzip_inr in Es as [_ ->].
  exists c, s0, s1, h. repeat split; auto.
  exact (pop_at_inr_bound _ _ _ E0).
Qed.

(** X1. Whenever [_getInputComputeRois] returns, the compute roi, read
    relative to the start of the input roi, is the requested roi on the
    spatial axes: input start + compute start = requested start and input
    start + compute stop = requested stop. *)
Theorem compute_roi_locates_request (op : Op) (roi iR cR : Roi) (c : nat)
  (lo s0 s1 : list Z) :
  _getInputComputeRois op roi = inr (iR, cR) ->
  list_index AxisKey_eqb Kc (axistags (in_meta op)) = inr c ->
  pop_at c (fst iR) = inr lo ->
  pop_at c (fst roi) = inr s0 ->
  pop_at c (snd roi) = inr s1 ->
  vplus lo (fst cR) = s0 /\ vplus lo (snd cR) = s1.
Proof.
  intros Hr Ec Elo E0 E1.
  destruct (rois_inversion op roi iR cR Hr)
    as (c' & s0' & s1' & h & Ec' & E0' & E1' & Eh & Lh & L1 & Ls & Hc & -> & ->).
  rewrite Ec in Ec'. injection Ec' as <-.
  rewrite E0 in E0'. injection E0' as <-.
  rewrite E1 in E1'. injection E1' as <-.
  cbn [fst snd] in *.
  rewrite pop_at_insert_at in Elo
    by (rewrite length_map, zipw_length; lia).
  injection Elo as <-.
  assert (Llo : length (map (fun x => Z.max x 0) (zipw Z.sub s0 h)) = length s0)
    by (rewrite length_map, zipw_length; lia).
  unfold vplus. split.
  - apply zipw_add_sub_cancel. exact Llo.
  - apply zipw_add_stop_cancel; assumption.
Qed.

Lemma compute_roi_locates_request_witness :
  vplus [0; 0] [2; 1] = [2; 1] /\ vplus [0; 0] [3; 2] = [3; 2].
Proof.
  apply (compute_roi_locates_request smoother_2d ([2; 1; 0], [3; 2; 1])
           ([0; 0; 0], [5; 5; 1]) ([2; 1], [3; 2]) 2%nat [0; 0] [2; 1] [3; 2]);
    reflexivity.
Defined.

(** X2. Whenever [_getInputComputeRois] returns, the input roi covers the
    channel range [0, 1) whatever channel range was requested: only
    channel 0 of the input is read. *)
Theorem input_roi_reads_channel_zero (op : Op) (roi iR cR : Roi) (c : nat) :
  _getInputComputeRois op roi = inr (iR, cR) ->
  list_index AxisKey_eqb Kc (axistags (in_meta op)) = inr c ->
  nth_error (fst iR) c = Some 0 /\ nth_error (snd iR) c = Some 1.
Proof.
  intros Hr Ec.
  destruct (rois_inversion op roi iR cR Hr)
    as (c' & s0 & s1 & h & Ec' & E0 & E1 & Eh & Lh & L1 & Ls & Hc & -> & _).
  rewrite Ec in Ec'. injection Ec' as <-. cbn [fst snd].
  split; apply nth_error_insert_at.
  - rewrite length_map, zipw_length; lia.
  - rewrite zipw_length; rewrite zipw_length; lia.
Qed.

Lemma input_roi_reads_channel_zero_witness :
  nth_error [0; 0; 0] 2 = Some 0 /\ nth_error [5; 5; 1] 2 = Some 1.
Proof.
  apply (input_roi_reads_channel_zero smoother_2d ([2; 1; 0], [3; 2; 1])
           ([0; 0; 0], [5; 5; 1]) ([2; 1], [3; 2]) 2%nat); reflexivity.
Defined.

Lemma non_spatial_shrinks (tags : list AxisKey) (k : AxisKey) :
  In k tags -> in_xyz k = false ->
  (length (filter in_xyz tags) < length tags)%nat.
Proof.
  induction tags as [|t tags IH]; simpl; [tauto|].
  intros [->|H] Hk.
  - rewrite Hk. pose proof (filter_length_le in_xyz tags). lia.
  - specialize (IH H Hk). destruct (in_xyz t); simpl; lia.
Qed.

Lemma two_non_spatial (tags : list AxisKey) :
  In Kc tags -> In Kt tags ->
  (length (filter in_xyz tags) + 2 <= length tags)%nat.
Proof.
  induction tags as [|t tags IH]; simpl; [tauto|].
  intros Hc Ht.
  destruct t; simpl.
  - destruct Hc as [|Hc], Ht as [|Ht]; try discriminate.
    specialize (IH Hc Ht). lia.
  - destruct Hc as [|Hc], Ht as [|Ht]; try discriminate.
    specialize (IH Hc Ht). lia.
  - destruct Hc as [|Hc], Ht as [|Ht]; try discriminate.
    specialize (IH Hc Ht). lia.
  - destruct Ht as [|Ht]; [discriminate|].
    pose proof (non_spatial_shrinks tags Kt Ht eq_refl). lia.
  - destruct Hc as [|Hc]; [discriminate|].
    pose proof (non_spatial_shrinks tags Kc Hc eq_refl). lia.
Qed.

Lemma list_index_In (tags : list AxisKey) (c : nat) :
  list_index AxisKey_eqb Kc tags = inr c -> In Kc tags.
Proof.
  revert c. induction tags as [|t tags IH]; intros c; simpl; [discriminate|].
  destruct (AxisKey_eqb t Kc) eqn:E.
  - destruct t; try discriminate. auto.
  - destruct (list_index AxisKey_eqb Kc tags) as [|c'] eqn:Ec; simpl;
      [discriminate|]. intros _. right. exact (IH _ eq_refl).
Qed.

(** X3. An input with a time axis is not handled: for a roi of the rank
    of the input, [_getInputComputeRois] raises, and with it the dirty
    propagation from the data input and [execute]. *)
Theorem time_axis_is_rejected (op : Op) (roi : Roi) :
  In Kt (axistags (in_meta op)) ->
  length (fst roi) = length (axistags (in_meta op)) ->
  (exists e, _getInputComputeRois op roi = inl e)
  /\ (exists e, propagateDirty op Input roi = inl e)
  /\ (forall tf k input result,
         exists e, execute tf k op input roi result = inl e).
Proof.
  intros Ht Lr.
  assert (H : exists e, _getInputComputeRois op roi = inl e).
  { destruct (_getInputComputeRois op roi) as [e|[iR cR]] eqn:Er;
      [eauto|exfalso].
    destruct (rois_inversion op roi iR cR Er)
      as (c & s0 & s1 & h & Ec & E0 & E1 & Eh & Lh & _).
    apply halos_length in Eh. unfold spatial_sigma in Eh.
    rewrite length_map in Eh.
    apply pop_at_inr_length in E0.
    pose proof (two_non_spatial _ (list_index_In _ _ Ec) Ht). lia. }
  destruct H as [e He]. split; [eauto|]. split.
  - exists e. unfold propagateDirty. rewrite He. reflexivity.
  - intros tf k input result. unfold execute. rewrite He.
    destruct (assert 49 _) as [e'|u]; simpl; eauto.
Qed.

Lemma time_axis_is_rejected_witness :
  exists e, propagateDirty smoother_txyc Input ([0; 1; 1; 0], [1; 3; 4; 1])
            = inl e.
Proof.
  apply (time_axis_is_rejected smoother_txyc ([0; 1; 1; 0], [1; 3; 4; 1])).
  - simpl. auto.
  - reflexivity.
Defined.

Lemma list_index_absent (tags : list AxisKey) :
  ~ In Kc tags -> list_index AxisKey_eqb Kc tags = inl ValueError.
Proof.
  induction tags as [|t tags IH]; simpl; [reflexivity|].
  intros H. destruct t; simpl; try (rewrite IH by tauto; reflexivity).
  elim H. auto.
Qed.

(** X4. Without a channel axis among the input's axis tags,
    [_getInputComputeRois] raises ValueError for every roi, and so does
    the dirty propagation from the data input. *)
Theorem missing_channel_axis_raises (op : Op) (roi : Roi) :
  ~ In Kc (axistags (in_meta op)) ->
  _getInputComputeRois op roi = inl ValueError
  /\ propagateDirty op Input roi = inl ValueError.
Proof.
  intros H. assert (E : _getInputComputeRois op roi = inl ValueError).
  { unfold _getInputComputeRois. rewrite list_index_absent by exact H.
    reflexivity. }
  split; [exact E|]. unfold propagateDirty. rewrite E. reflexivity.
Qed.

Lemma missing_channel_axis_raises_witness :
  _getInputComputeRois smoother_xy ([0; 0], [2; 2]) = inl ValueError
  /\ propagateDirty smoother_xy Input ([0; 0], [2; 2]) = inl ValueError.
Proof.
  apply (missing_channel_axis_raises smoother_xy ([0; 0], [2; 2])).
  simpl. intuition discriminate.
Defined.

Lemma all_le_true (a b : list Z) :
  length a = length b -> all_le a b = true -> vle a b.
Proof.
  revert b. induction a as [|x a IH]; intros [|y b] L; simpl in *;
    try discriminate; auto.
  rewrite andb_true_iff. intros [Hx H]. split; [now apply Z.leb_le|].
  apply IH; congruence.
Qed.

(** X5. A roi of the input's rank whose stop exceeds the input shape on
    some axis is refused by the first assertion of [execute], before
    anything is requested from the input. *)
Theorem execute_refuses_roi_beyond_shape (tf : Q -> Q)
  (k : ndarray Q -> list (option Q) -> Roi -> ndarray Q -> ndarray Q)
  (op : Op) (input : Slot Q) (roi : Roi) (result : ndarray Q) :
  length (snd roi) = length (shape (in_meta op)) ->
  ~ vle (snd roi) (shape (in_meta op)) ->
  execute tf k op input roi result = inl (AssertionError 49).
Proof.
  intros L H. unfold execute.
  destruct (all_le (snd roi) (shape (in_meta op))) eqn:E; [|reflexivity].
  elim H. now apply all_le_true.
Qed.

Lemma execute_refuses_roi_beyond_shape_witness :
  execute (fun q => q) kernel_out smoother_2d ramp ([1; 1; 0], [3; 6; 1])
          (allocateDestination (0#1)%Q (out_meta smoother_2d)
                               [1; 1; 0] [3; 6; 1])
  = inl (AssertionError 49).
Proof.
  apply (execute_refuses_roi_beyond_shape (fun q => q) kernel_out smoother_2d
           ramp ([1; 1; 0], [3; 6; 1])).
  - reflexivity.
  - simpl. lia.
Defined.

End HaloInversion.

Section HaloBounds.

Import OpAnisotropicGaussianSmoothing.

Lemma insert_at_pop_at {A} (c : nat) (l l' : list A) (v : A) :
  pop_at c l = inr l' -> nth_error l c = Some v -> l = insert_at c v l'.
Proof.
  revert l l'. induction c as [|c IH]; intros [|x l] l'; simpl; try discriminate.
  - intros [= <-] [= <-]. destruct l; reflexivity.
  - destruct (pop_at c l) as [|l1] eqn:E; simpl; [discriminate|].
    intros [= <-] Hn. simpl. f_equal. exact (IH _ _ E Hn).
Qed.

Lemma within_pop (c : nat) (s e shp s' e' shp' : list Z) :
  pop_at c s = inr s' -> pop_at c e = inr e' -> pop_at c shp = inr shp' ->
  within s e shp -> within s' e' shp'.
Proof.
  revert s e shp s' e' shp'.
  induction c as [|c IH]; intros [|a s] [|b e] [|n shp] s' e' shp'; simpl;
    try discriminate.
  - intros [= <-] [= <-] [= <-] (_ & _ & H). exact H.
  - destruct (pop_at c s) as [|s1] eqn:Es; simpl; try discriminate.
    destruct (pop_at c e) as [|e1] eqn:Ee; simpl; try discriminate.
    destruct (pop_at c shp) as [|h1] eqn:Eh; simpl; try discriminate.
    intros [= <-] [= <-] [= <-] (Ha & Hb & H). simpl.
    split; [exact Ha|]. split; [exact Hb|].
    exact (IH _ _ _ _ _ _ Es Ee Eh H).
Qed.

Lemma within_nth (c : nat) (s e shp : list Z) (n : Z) :
  within s e shp -> nth_error shp c = Some n ->
  exists a b, nth_error s c = Some a /\ nth_error e c = Some b
              /\ 0 <= a < b /\ b <= n.
Proof.
  revert s e shp.
  induction c as [|c IH]; intros [|a s] [|b e] [|m shp]; simpl;
    try tauto; try discriminate.
  - intros (Ha & Hb & _) [= <-]. exists a, b. auto.
  - intros (_ & _ & H) Hn. exact (IH _ _ _ H Hn).
Qed.

Lemma extension_in_bounds (hs s0 s1 shp p : list Z) :
  length s0 = length hs -> length s1 = length hs -> length shp = length hs ->
  inside p (map (fun v => Z.max v 0) (zipw Z.sub s0 hs))
           (zipw Z.min (zipw Z.add s1 hs) shp) ->
  inside p (map (fun _ => 0) shp) shp.
Proof.
  revert s0 s1 shp p.
  induction hs as [|h hs IH]; intros [|a s0] [|b s1] [|n shp] [|x p];
    simpl; try discriminate; try tauto.
  intros L0 L1 L2 [Hx H]. split; [lia|]. apply (IH s0 s1); auto.
Qed.

Lemma extension_contains (hs s0 s1 shp p : list Z) :
  Forall (fun h => 0 <= h) hs ->
  length s0 = length hs ->
  within s0 s1 shp -> inside p s0 s1 ->
  inside p (map (fun v => Z.max v 0) (zipw Z.sub s0 hs))
           (zipw Z.min (zipw Z.add s1 hs) shp).
Proof.
  revert s0 s1 shp p.
  induction hs as [|h hs IH]; intros [|a s0] [|b s1] [|n shp] [|x p];
    simpl; try discriminate; try tauto.
  intros Hh L (Ha & Hb & Hw) [Hx Hp]. inversion Hh; subst.
  split; [lia|]. apply IH; auto.
Qed.

Lemma compute_in_block (hs s0 s1 shp : list Z) :
  Forall (fun h => 0 <= h) hs ->
  length s0 = length hs ->
  within s0 s1 shp ->
  let lo := map (fun v => Z.max v 0) (zipw Z.sub s0 hs) in
  let hi := zipw Z.min (zipw Z.add s1 hs) shp in
  vle (map (fun _ => 0) s0) (zipw Z.sub s0 lo)
  /\ vle (zipw Z.sub (zipw Z.add (zipw Z.sub s0 lo) s1) s0) (zipw Z.sub hi lo).
Proof.
  revert s0 s1 shp.
  induction hs as [|h hs IH]; intros [|a s0] [|b s1] [|n shp];
    simpl; try discriminate; try tauto.
  intros Hh L (Ha & Hb & Hw). inversion Hh; subst.
  destruct (IH s0 s1 shp) as [I1 I2]; auto.
  repeat split; auto; lia.
Qed.

Lemma vle_zeros (a b : list Z) :
  vle (map (fun _ => 0) a) b -> vle (map (fun _ => 0) b) b.
Proof.
  revert b. induction a as [|x a IH]; intros [|y b]; simpl; try tauto.
  intros [Hy H]. split; [exact Hy|]. exact (IH _ H).
Qed.

(** X6. For a well-formed operator whose input has at least one channel,
    the input roi that [_getInputComputeRois] returns lies within the
    bounds of the input: every position in it is a position of the input,
    however large the halo. *)
Theorem input_roi_within_input (op : Op) (roi iR cR : Roi) (n : Z) :
  well_formed op ->
  channel_extent (in_meta op) = Some n -> 1 <= n ->
  _getInputComputeRois op roi = inr (iR, cR) ->
  forall p, inside p (fst iR) (snd iR) -> in_shape p (shape (in_meta op)).
Proof.
  intros Hwf Hch Hn Hr p Hp.
  destruct (operator_axes op Hwf) as (c & shp' & Ec & Hc & Ep & Es & _ & _ & Lt).
  destruct (rois_inversion op roi iR cR Hr)
    as (c' & s0 & s1 & h & Ec' & E0 & E1 & Eh & Lh & L1 & Ls & Hc0 & -> & _).
  rewrite Ec in Ec'. injection Ec' as <-. cbn [fst snd] in Hp.
  rewrite Es in *.
  unfold channel_extent in Hch. rewrite Ec in Hch.
  assert (Llo : length (map (fun x => Z.max x 0) (zipw Z.sub s0 h)) = length s0)
    by (rewrite length_map, zipw_length; lia).
  assert (Lhi : length (zipw Z.min (zipw Z.add s1 h) shp') = length s0)
    by (rewrite zipw_length; rewrite zipw_length; lia).
  destruct (inside_length _ _ _ Hp) as [Lp _].
  rewrite insert_at_length in Lp.
  destruct (pop_at_length c p) as [p0 [Ep0 Lp0]]; [lia|].
  assert (Hp0 : inside p0 (map (fun x => Z.max x 0) (zipw Z.sub s0 h))
                  (zipw Z.min (zipw Z.add s1 h) shp')).
  { refine (inside_pop c _ _ _ _ _ _ Ep0 _ _ Hp); apply pop_at_insert_at; lia. }
  apply extension_in_bounds in Hp0; try lia.
  destruct (nth_error p c) as [pc|] eqn:Epc;
    [|apply nth_error_None in Epc; lia].
  destruct (inside_nth c _ _ _ pc Hp Epc) as (va & vb & Hva & Hvb & Hrange).
  rewrite nth_error_insert_at in Hva by lia.
  rewrite nth_error_insert_at in Hvb by lia.
  injection Hva as <-. injection Hvb as <-.
  unfold in_shape.
  rewrite (insert_at_pop_at c (shape (in_meta op)) shp' n Ep Hch) at 2.
  assert (Ez : map (fun _ : Z => 0) (shape (in_meta op))
               = insert_at c 0 (map (fun _ : Z => 0) shp')).
  { apply insert_at_pop_at; [now apply pop_at_map|].
    rewrite nth_error_map, Hch. reflexivity. }
  rewrite Ez.
  apply (inside_insert c p _ _ p0 pc 0 n Ep0 Epc); [lia|exact Hp0].
Qed.

Lemma input_roi_within_input_witness :
  inside [4; 4; 0] [0; 0; 0] [5; 5; 1] /\ in_shape [4; 4; 0] [6; 5; 1].
Proof.
  assert (H : inside [4; 4; 0] [0; 0; 0] [5; 5; 1]) by (simpl; lia).
  split; [exact H|].
  apply (input_roi_within_input smoother_2d ([2; 1; 0], [3; 2; 1])
           ([0; 0; 0], [5; 5; 1]) ([2; 1], [3; 2]) 1).
  - unfold well_formed. simpl. repeat split.
    repeat constructor; simpl; intuition discriminate.
  - reflexivity.
  - lia.
  - reflexivity.
  - exact H.
Defined.

(** X7. For a well-formed operator with non-negative sigmas on a
    single-channel input and a non-empty roi within bounds: the input roi
    contains the requested roi, and the compute roi lies inside the block
    that is fetched (it starts at or after 0 and stops at or before the
    extent of the input roi on every spatial axis). *)
Theorem input_roi_contains_request (op : Op) (roi : Roi) :
  well_formed op -> sigmas_nonneg op ->
  channel_extent (in_meta op) = Some 1 ->
  within (fst roi) (snd roi) (shape (in_meta op)) ->
  exists c iR cR lo hi,
    _getInputComputeRois op roi = inr (iR, cR)
    /\ list_index AxisKey_eqb Kc (axistags (in_meta op)) = inr c
    /\ pop_at c (fst iR) = inr lo /\ pop_at c (snd iR) = inr hi
    /\ (forall p, inside p (fst roi) (snd roi) -> inside p (fst iR) (snd iR))
    /\ vle (map (fun _ => 0) (fst cR)) (fst cR)
    /\ vle (snd cR) (vminus hi lo).
Proof.
  intros Hwf Hs Hch Hroi.
  destruct (operator_axes op Hwf) as (c & shp' & Ec & Hc & Ep & Es & Eh & Lh & Lt).
  destruct (within_lengths _ _ _ Hroi) as [L0 L1].
  pose proof Hwf as (_ & _ & Hl & _ & _).
  destruct (pop_at_length c (fst roi)) as [s0 [E0 Ls0]]; [lia|].
  destruct (pop_at_length c (snd roi)) as [s1 [E1 Ls1]]; [lia|].
  pose proof (rois_explicit op roi c shp' Ec Es Eh Lh s0 s1 E0 E1
                ltac:(lia) ltac:(lia)) as Er.
  cbv zeta in Er.
  pose proof (within_pop c _ _ _ _ _ _ E0 E1 Ep Hroi) as Hw.
  pose proof (halo_radii_nonneg op Hs) as Hh.
  set (hs := halo_radii op) in *.
  set (lo := map (fun x => Z.max x 0) (zipw Z.sub s0 hs)) in *.
  set (hi := zipw Z.min (zipw Z.add s1 hs) shp') in *.
  assert (Llo : length lo = length s0)
    by (unfold lo; rewrite length_map, zipw_length; lia).
  assert (Lhi : length hi = length s0)
    by (unfold hi; rewrite zipw_length; rewrite zipw_length; lia).
  destruct (compute_in_block hs s0 s1 shp' Hh ltac:(lia) Hw) as [B0 B1].
  fold lo hi in B0, B1.
  eexists c, _, _, lo, hi. split; [exact Er|]. cbn [fst snd].
  split; [exact Ec|].
  split; [apply pop_at_insert_at; lia|].
  split; [apply pop_at_insert_at; lia|].
  split; [|split].
  - intros p Hp.
    destruct (inside_length _ _ _ Hp) as [Lp _].
    destruct (pop_at_length c p) as [p0 [Ep0 Lp0]]; [lia|].
    pose proof (inside_pop c _ _ _ _ _ _ Ep0 E0 E1 Hp) as Hp0.
    destruct (nth_error p c) as [pc|] eqn:Epc;
      [|apply nth_error_None in Epc; lia].
    destruct (inside_nth c _ _ _ pc Hp Epc) as (va & vb & Hva & Hvb & Hrange).
    unfold channel_extent in Hch. rewrite Ec in Hch.
    destruct (within_nth c _ _ _ 1 Hroi Hch) as (a & b & Ha & Hb & Hab & Hb1).
    rewrite Ha in Hva. rewrite Hb in Hvb.
    injection Hva as <-. injection Hvb as <-.
    apply (inside_insert c p _ _ p0 pc 0 1 Ep0 Epc); [lia|].
    apply extension_contains; auto. lia.
  - exact (vle_zeros _ _ B0).
  - exact B1.
Qed.

Lemma input_roi_contains_request_witness :
  exists c iR cR lo hi,
    _getInputComputeRois smoother_2d ([2; 1; 0], [3; 2; 1]) = inr (iR, cR)
    /\ list_index AxisKey_eqb Kc [Kx; Ky; Kc] = inr c
    /\ pop_at c (fst iR) = inr lo /\ pop_at c (snd iR) = inr hi
    /\ (forall p, inside p [2; 1; 0] [3; 2; 1] -> inside p (fst iR) (snd iR))
    /\ vle (map (fun _ => 0) (fst cR)) (fst cR)
    /\ vle (snd cR) (vminus hi lo).
Proof.
  apply (input_roi_contains_request smoother_2d ([2; 1; 0], [3; 2; 1])).
  - unfold well_formed. simpl. repeat split.
    repeat constructor; simpl; intuition discriminate.
  - intros k v. destruct k; simpl; intros [= <-]; discriminate.
  - reflexivity.
  - simpl. lia.
Defined.

End HaloBounds.

Section HaloShape.

Import OpAnisotropicGaussianSmoothing.

Lemma vle_length (a b : list Z) : vle a b -> length a = length b.
Proof.
  revert b. induction a as [|x a IH]; intros [|y b]; simpl; try tauto.
  intros [_ H]. f_equal. exact (IH _ H).
Qed.

Lemma no_clip_low (hs s0 : list Z) :
  vle hs s0 -> map (fun v => Z.max v 0) (zipw Z.sub s0 hs) = zipw Z.sub s0 hs.
Proof.
  revert s0. induction hs as [|h hs IH]; intros [|a s0]; simpl; try tauto.
  intros [Hh H]. rewrite IH by exact H. f_equal. lia.
Qed.

Lemma no_clip_high (v shp : list Z) : vle v shp -> zipw Z.min v shp = v.
Proof.
  revert shp. induction v as [|x v IH]; intros [|n shp]; simpl; try tauto.
  intros [Hx H]. rewrite IH by exact H. f_equal. lia.
Qed.

Lemma offset_is_radius (hs s0 : list Z) :
  length hs = length s0 -> zipw Z.sub s0 (zipw Z.sub s0 hs) = hs.
Proof.
  revert s0. induction hs as [|h hs IH]; intros [|a s0] L; simpl in *;
    try discriminate; try reflexivity.
  rewrite IH by congruence. f_equal. lia.
Qed.

Lemma stop_after_radius (hs s0 s1 : list Z) :
  length hs = length s0 -> length s1 = length s0 ->
  zipw Z.sub (zipw Z.add hs s1) s0 = zipw Z.add hs (zipw Z.sub s1 s0).
Proof.
  revert s0 s1. induction hs as [|h hs IH]; intros [|a s0] [|b s1] L0 L1;
    simpl in *; try discriminate; try reflexivity.
  rewrite IH by congruence. f_equal. lia.
Qed.

(** X8. Away from the borders nothing is clipped: when on every spatial
    axis the roi starts at least one radius after 0 and stops at least one
    radius before the end of the input, the input roi is the roi grown by
    exactly the radius on both sides (channel range [0, 1)) and the
    compute roi starts at the radius and has the requested extent. *)
Theorem interior_roi_is_grown_by_radius (op : Op) (roi : Roi) (c : nat)
  (s0 s1 shp' : list Z) :
  well_formed op ->
  list_index AxisKey_eqb Kc (axistags (in_meta op)) = inr c ->
  pop_at c (fst roi) = inr s0 ->
  pop_at c (snd roi) = inr s1 ->
  pop_at c (shape (in_meta op)) = inr shp' ->
  length s1 = length s0 ->
  vle (halo_radii op) s0 ->
  vle (vplus s1 (halo_radii op)) shp' ->
  _getInputComputeRois op roi
  = inr ((insert_at c 0 (vminus s0 (halo_radii op)),
          insert_at c 1 (vplus s1 (halo_radii op))),
         (halo_radii op, vplus (halo_radii op) (vminus s1 s0))).
Proof.
  intros Hwf Ec E0 E1 Ep L01 Hlo Hhi.
  destruct (operator_axes op Hwf)
    as (c' & shp'' & Ec' & Hc & Ep' & Es & Eh & Lh & Lt).
  rewrite Ec in Ec'. injection Ec' as <-.
  rewrite Ep in Ep'. injection Ep' as <-.
  pose proof (vle_length _ _ Hlo) as L0.
  pose proof (vle_length _ _ Hhi) as L1.
  assert (Ls1 : length s1 = length shp') by lia.
  rewrite (rois_explicit op roi c shp' Ec Es Eh Lh s0 s1 E0 E1
             ltac:(lia) Ls1).
  unfold vplus, vminus in *.
  rewrite (no_clip_low _ _ Hlo), (no_clip_high _ _ Hhi).
  rewrite offset_is_radius by lia.
  rewrite stop_after_radius by lia.
  reflexivity.
Qed.

Lemma interior_roi_is_grown_by_radius_witness :
  _getInputComputeRois smoother_wide ([3; 4; 0], [5; 6; 1])
  = inr (([1; 1; 0], [7; 9; 1]), ([2; 3], [4; 5])).
Proof.
  apply (interior_roi_is_grown_by_radius smoother_wide ([3; 4; 0], [5; 6; 1])
           2%nat [3; 4] [5; 6] [12; 12]).
  - unfold well_formed. simpl. repeat split.
    repeat constructor; simpl; intuition discriminate.
  - reflexivity.
  - reflexivity.
  - reflexivity.
  - reflexivity.
  - reflexivity.
  - vm_compute. intuition discriminate.
  - vm_compute. intuition discriminate.
Defined.

End HaloShape.

Section HaloMonotone.

Import OpAnisotropicGaussianSmoothing.

Lemma roi_sub_lengths (s e s' e' : list Z) :
  roi_sub s e s' e' ->
  length e = length s /\ length s' = length s /\ length e' = length s.
Proof.
  revert e s' e'. induction s as [|a s IH]; intros [|b e] [|a' s'] [|b' e'];
    simpl; try tauto.
  intros (_ & _ & H). destruct (IH _ _ _ H) as (? & ? & ?).
  repeat split; congruence.
Qed.

Lemma roi_sub_pop (c : nat) (s e s' e' s0 e0 s0' e0' : list Z) :
  pop_at c s = inr s0 -> pop_at c e = inr e0 ->
  pop_at c s' = inr s0' -> pop_at c e' = inr e0' ->
  roi_sub s e s' e' -> roi_sub s0 e0 s0' e0'.
Proof.
  revert s e s' e' s0 e0 s0' e0'.
  induction c as [|c IH]; intros [|a s] [|b e] [|a' s'] [|b' e'] s0 e0 s0' e0';
    simpl; try discriminate.
  - intros [= <-] [= <-] [= <-] [= <-] (_ & _ & H). exact H.
  - destruct (pop_at c s) as [|x1] eqn:E1; simpl; try discriminate.
    destruct (pop_at c e) as [|x2] eqn:E2; simpl; try discriminate.
    destruct (pop_at c s') as [|x3] eqn:E3; simpl; try discriminate.
    destruct (pop_at c e') as [|x4] eqn:E4; simpl; try discriminate.
    intros [= <-] [= <-] [= <-] [= <-] (Ha & Hb & H). simpl.
    split; [exact Ha|]. split; [exact Hb|].
    exact (IH _ _ _ _ _ _ _ _ E1 E2 E3 E4 H).
Qed.

Lemma roi_sub_insert (c : nat) (v w : Z) (s e s' e' : list Z) :
  roi_sub s e s' e' ->
  roi_sub (insert_at c v s) (insert_at c w e)
          (insert_at c v s') (insert_at c w e').
Proof.
  revert s e s' e'.
  induction c as [|c IH]; intros s e s' e' H.
  - simpl. split; [lia|]. split; [lia|exact H].
  - destruct s as [|a s], e as [|b e], s' as [|a' s'], e' as [|b' e'];
      simpl in *; try tauto.
    + repeat split; lia.
    + destruct H as (Ha & Hb & H). repeat split; auto.
Qed.

Lemma extension_monotone (hs s0 s1 s0' s1' shp : list Z) :
  length s0 = length hs -> length shp = length hs ->
  roi_sub s0 s1 s0' s1' ->
  roi_sub (map (fun v => Z.max v 0) (zipw Z.sub s0 hs))
          (zipw Z.min (zipw Z.add s1 hs) shp)
          (map (fun v => Z.max v 0) (zipw Z.sub s0' hs))
          (zipw Z.min (zipw Z.add s1' hs) shp).
Proof.
  revert s0 s1 s0' s1' shp.
  induction hs as [|h hs IH];
    intros [|a s0] [|b s1] [|a' s0'] [|b' s1'] [|n shp];
    simpl; try discriminate; try tauto.
  intros L0 L1 (Ha & Hb & H). split; [lia|]. split; [lia|].
  apply IH; auto.
Qed.

(** X9. Dirty propagation is monotone: for a well-formed operator, a
    region contained in another one yields a dirty region contained in the
    other's dirty region. *)
Theorem dirty_region_is_monotone (op : Op) (r r' : Roi) :
  well_formed op ->
  length (fst r) = length (axistags (in_meta op)) ->
  roi_sub (fst r) (snd r) (fst r') (snd r') ->
  exists ds de ds' de',
    propagateDirty op Input r = inr (DirtyRoi ds de)
    /\ propagateDirty op Input r' = inr (DirtyRoi ds' de')
    /\ roi_sub ds de ds' de'.
Proof.
  intros Hwf Lr Hsub.
  destruct (operator_axes op Hwf) as (c & shp' & Ec & Hc & Ep & Es & Eh & Lh & Lt).
  destruct (roi_sub_lengths _ _ _ _ Hsub) as (Le & Ls' & Le').
  destruct (pop_at_length c (fst r)) as [s0 [E0 L0]]; [lia|].
  destruct (pop_at_length c (snd r)) as [s1 [E1 L1]]; [lia|].
  destruct (pop_at_length c (fst r')) as [s0' [E0' L0']]; [lia|].
  destruct (pop_at_length c (snd r')) as [s1' [E1' L1']]; [lia|].
  pose proof (rois_explicit op r c shp' Ec Es Eh Lh s0 s1 E0 E1
                ltac:(lia) ltac:(lia)) as Er.
  pose proof (rois_explicit op r' c shp' Ec Es Eh Lh s0' s1' E0' E1'
                ltac:(lia) ltac:(lia)) as Er'.
  cbv zeta in Er, Er'.
  eexists _, _, _, _.
  split; [unfold propagateDirty; rewrite Er; reflexivity|].
  split; [unfold propagateDirty; rewrite Er'; reflexivity|].
  cbn [fst snd]. apply roi_sub_insert.
  apply extension_monotone; try lia.
  exact (roi_sub_pop c _ _ _ _ _ _ _ _ E0 E1 E0' E1' Hsub).
Qed.

Lemma dirty_region_is_monotone_witness :
  exists ds de ds' de',
    propagateDirty smoother_wide Input ([6; 6; 0], [7; 7; 1])
    = inr (DirtyRoi ds de)
    /\ propagateDirty smoother_wide Input ([5; 2; 0], [9; 8; 1])
       = inr (DirtyRoi ds' de')
    /\ roi_sub ds de ds' de'.
Proof.
  apply (dirty_region_is_monotone smoother_wide ([6; 6; 0], [7; 7; 1])
           ([5; 2; 0], [9; 8; 1])).
  - unfold well_formed. simpl. repeat split.
    repeat constructor; simpl; intuition discriminate.
  - reflexivity.
  - simpl. lia.
Defined.

Lemma whole_low (hs shp : list Z) :
  Forall (fun h => 0 <= h) hs -> length shp = length hs ->
  map (fun v => Z.max v 0) (zipw Z.sub (map (fun _ => 0) shp) hs)
  = map (fun _ => 0) shp.
Proof.
  revert shp. induction hs as [|h hs IH]; intros [|n shp] Hh L; simpl in *;
    try discriminate; try reflexivity.
  inversion Hh; subst. rewrite IH by (auto; congruence). f_equal. lia.
Qed.

Lemma whole_high (hs shp : list Z) :
  Forall (fun h => 0 <= h) hs -> length shp = length hs ->
  zipw Z.min (zipw Z.add shp hs) shp = shp.
Proof.
  revert shp. induction hs as [|h hs IH]; intros [|n shp] Hh L; simpl in *;
    try discriminate; try reflexivity.
  inversion Hh; subst. rewrite IH by (auto; congruence). f_equal. lia.
Qed.

Lemma whole_offset (shp : list Z) :
  zipw Z.sub (map (fun _ => 0) shp) (map (fun _ => 0) shp)
  = map (fun _ => 0) shp
  /\ zipw Z.sub (zipw Z.add (map (fun _ => 0) shp) shp) (map (fun _ => 0) shp)
     = shp.
Proof.
  induction shp as [|n shp [IH1 IH2]]; simpl; [split; reflexivity|].
  rewrite IH1, IH2. split; f_equal; lia.
Qed.

(** X10. The halo adds nothing to a request for the whole image: for a
    well-formed operator with non-negative sigmas on a single-channel
    input, the roi covering the whole input yields itself as input roi,
    and the compute roi is the whole fetched block. *)
Theorem whole_image_needs_no_halo (op : Op) :
  well_formed op -> sigmas_nonneg op ->
  channel_extent (in_meta op) = Some 1 ->
  _getInputComputeRois op (map (fun _ => 0) (shape (in_meta op)),
                           shape (in_meta op))
  = inr ((map (fun _ => 0) (shape (in_meta op)), shape (in_meta op)),
         (map (fun _ => 0) (spatial_shape (in_meta op)),
          spatial_shape (in_meta op))).
Proof.
  intros Hwf Hs Hch.
  destruct (operator_axes op Hwf) as (c & shp' & Ec & Hc & Ep & Es & Eh & Lh & Lt).
  pose proof (halo_radii_nonneg op Hs) as Hh.
  pose proof (pop_at_map (fun _ : Z => 0) c _ _ Ep) as Ez.
  rewrite (rois_explicit op (map (fun _ => 0) (shape (in_meta op)),
                             shape (in_meta op))
             c shp' Ec Es Eh Lh (map (fun _ => 0) shp') shp' Ez Ep
             ltac:(rewrite length_map; reflexivity) eq_refl).
  rewrite whole_low, whole_high by (auto; lia).
  destruct (whole_offset shp') as [-> ->].
  unfold channel_extent in Hch. rewrite Ec in Hch.
  rewrite <- (insert_at_pop_at c (shape (in_meta op)) shp' 1 Ep Hch).
  rewrite <- (insert_at_pop_at c (map (fun _ : Z => 0) (shape (in_meta op)))
                (map (fun _ : Z => 0) shp') 0 Ez)
    by (rewrite nth_error_map, Hch; reflexivity).
  rewrite Es. reflexivity.
Qed.

Lemma whole_image_needs_no_halo_witness :
  _getInputComputeRois smoother_2d ([0; 0; 0], [6; 5; 1])
  = inr (([0; 0; 0], [6; 5; 1]), ([0; 0], [6; 5])).
Proof.
  apply (whole_image_needs_no_halo smoother_2d).
  - unfold well_formed. simpl. repeat split.
    repeat constructor; simpl; intuition discriminate.
  - intros k v. destruct k; simpl; intros [= <-]; discriminate.
  - reflexivity.
Defined.

End HaloMonotone.

(** ** Configuration of the smoothing operator *)

Section SmoothingKeys.

Import OpAnisotropicGaussianSmoothing.

Lemma AxisKey_eqb_eq (a b : AxisKey) : AxisKey_eqb a b = true <-> a = b.
Proof. destruct a, b; simpl; split; intros; congruence. Qed.

Lemma keys_are_xyz_iff (d : list (AxisKey * Q)) :
  keys_are_xyz d = true
  <-> (forall k, In k (map fst d) <-> in_xyz k = true).
Proof.
  unfold keys_are_xyz. rewrite andb_true_iff, !forallb_forall. split.
  - intros [H1 H2] k. split.
    + intros Hk. apply in_map_iff in Hk as [p [<- Hp]]. exact (H1 p Hp).
    + intros Hk.
      assert (Hin : In k [Kx; Ky; Kz])
        by (destruct k; simpl in *; try discriminate; auto).
      specialize (H2 k Hin). apply existsb_exists in H2 as [p [Hp E]].
      apply AxisKey_eqb_eq in E. subst k. now apply in_map.
  - intros H. split.
    + intros p Hp. apply H. now apply in_map.
    + intros k Hk.
      assert (Hx : in_xyz k = true)
        by (simpl in Hk; destruct Hk as [<-|[<-|[<-|[]]]]; reflexivity).
      apply H in Hx. apply in_map_iff in Hx as [p [E Hp]].
      apply existsb_exists. exists p. split; [exact Hp|].
      now apply AxisKey_eqb_eq.
Qed.

(** X11. The configuration of the smoothing operator succeeds exactly on
    a sigma dict whose set of keys is {x, y, z}: a value that is not a
    dict fails the assertion of line 43, and a dict with a missing or an
    additional key fails the assertion of line 44. *)
Theorem smoothing_setup_requires_xyz (m : Meta) (s : SigmasValue) :
  ((exists op d, setupOutputs m s = inr (op, d))
   <-> (exists dict, s = SigDict dict
                     /\ forall k, In k (map fst dict) <-> in_xyz k = true))
  /\ (s = SigOther -> setupOutputs m s = inl (AssertionError 43))
  /\ (forall dict, s = SigDict dict ->
        ~ (forall k, In k (map fst dict) <-> in_xyz k = true) ->
        setupOutputs m s = inl (AssertionError 44)).
Proof.
  split; [split|split].
  - intros (op & d & H). destruct s as [dict|]; [|discriminate].
    exists dict. split; [reflexivity|]. apply keys_are_xyz_iff.
    unfold setupOutputs in H. simpl in H.
    destruct (keys_are_xyz dict); [reflexivity|discriminate].
  - intros (dict & -> & H). apply keys_are_xyz_iff in H.
    unfold setupOutputs. simpl. rewrite H. simpl. eauto.
  - intros ->. reflexivity.
  - intros dict -> H. unfold setupOutputs. simpl.
    destruct (keys_are_xyz dict) eqn:E; [|reflexivity].
    elim H. now apply keys_are_xyz_iff.
Qed.

Lemma smoothing_setup_requires_xyz_witness :
  setupOutputs (in_meta smoother_2d) (SigDict [(Kx, (1#1)%Q); (Ky, (1#1)%Q)])
  = inl (AssertionError 44).
Proof.
  apply (proj2 (proj2 (smoothing_setup_requires_xyz (in_meta smoother_2d)
                         (SigDict [(Kx, (1#1)%Q); (Ky, (1#1)%Q)])))
           [(Kx, (1#1)%Q); (Ky, (1#1)%Q)] eq_refl).
  intros H. specialize (proj2 (H Kz) eq_refl). simpl.
  intuition discriminate.
Defined.

End SmoothingKeys.

(** ** Further properties of the label selection *)

Section SelectLabelsMore.

Import OpSelectLabels.

Lemma request_explicit (op : Op) (roi : Roi) :
  request op roi
  = inr (mkArray uint8 (vminus (snd roi) (fst roi))
           (map (fun i => select_voxel (voxel (small op) (vplus (fst roi) i))
                                       (voxel (big op) (vplus (fst roi) i)))
                (indices (vminus (snd roi) (fst roi))))).
Proof.
  unfold request, execute.
  rewrite execute_frame_final by reflexivity. reflexivity.
Qed.

Lemma select_voxel_signed (s b : Z) :
  select_voxel s b = Z.b2z (negb (s =? 0) && (0 <? b)).
Proof.
  unfold select_voxel.
  destruct (Z.eqb_spec s 0) as [->|Hs]; simpl.
  - reflexivity.
  - destruct b; reflexivity.
Qed.

Lemma select_mask_is_positive_overlap_aux (op : Op) (roi : Roi) :
  request op roi
  = inr (mkArray uint8 (vminus (snd roi) (fst roi))
           (map (fun i =>
                   Z.b2z (negb (voxel (small op) (vplus (fst roi) i) =? 0)
                          && (0 <? voxel (big op) (vplus (fst roi) i))))
                (indices (vminus (snd roi) (fst roi))))).
Proof.
  rewrite request_explicit. do 2 f_equal.
  apply map_ext. intros i. apply select_voxel_signed.
Qed.

(** X12. Whatever integers the two inputs hold (label volumes or not),
    the mask that a request returns is 1 exactly at the voxels where the
    small input is nonzero and the big input is positive, and 0 at all
    others: a negative big value never passes. *)
Theorem select_mask_is_positive_overlap (op : Op) (roi : Roi) :
  request op roi
  = inr (mkArray uint8 (vminus (snd roi) (fst roi))
           (map (fun i =>
                   Z.b2z (negb (voxel (small op) (vplus (fst roi) i) =? 0)
                          && (0 <? voxel (big op) (vplus (fst roi) i))))
                (indices (vminus (snd roi) (fst roi))))).
Proof.
  rewrite request_explicit. do 2 f_equal.
  apply map_ext. intros i. apply select_voxel_signed.
Qed.

(** X13. The mask depends on the two inputs only through their
    foreground: two pairs of inputs that are nonzero (small) and positive
    (big) at the same positions give the same answer to every request,
    whatever the label values are. *)
Theorem select_mask_ignores_label_values (op op' : Op) (roi : Roi) :
  (forall p, (voxel (small op) p =? 0) = (voxel (small op') p =? 0)) ->
  (forall p, (0 <? voxel (big op) p) = (0 <? voxel (big op') p)) ->
  request op roi = request op' roi.
Proof.
  intros Hs Hb. rewrite !select_mask_is_positive_overlap_aux.
  do 2 f_equal. apply map_ext. intros i. now rewrite Hs, Hb.
Qed.

Lemma select_mask_ignores_label_values_witness :
  request (mkOp one_seed two_components) whole_image
  = request (mkOp one_seed_relabelled two_components_relabelled) whole_image.
Proof.
  apply (select_mask_ignores_label_values
           (mkOp one_seed two_components)
           (mkOp one_seed_relabelled two_components_relabelled) whole_image).
  - intros p.
    change ((voxel one_seed p =? 0) = (3 * voxel one_seed p =? 0)).
    generalize (voxel one_seed p) as v. intros v; destruct v; reflexivity.
  - intros p.
    change ((0 <? voxel two_components p) = (0 <? 5 * voxel two_components p)).
    generalize (voxel two_components p) as v. intros v; destruct v; reflexivity.
Defined.

Lemma in_combine_maps {I A B} (g : I -> A) (h : I -> B) (l : list I) (i : I) :
  In i l -> In (g i, h i) (combine (map g l) (map h l)).
Proof.
  induction l as [|j l IH]; simpl; [tauto|].
  intros [->|H]; [left; reflexivity|right; exact (IH H)].
Qed.

Lemma Forall2_maps {I A B} (R : A -> B -> Prop) (f : I -> A) (f' : I -> B)
  (l : list I) :
  (forall i, In i l -> R (f i) (f' i)) -> Forall2 R (map f l) (map f' l).
Proof.
  induction l as [|j l IH]; simpl; intros H; constructor.
  - apply H. auto.
  - apply IH. intros i Hi. apply H. auto.
Qed.

(** X14. The mask the code returns never exceeds the selection the class
    docstring describes: every voxel marked by a request over a roi is
    also marked when the big labels that meet a small label inside the
    roi are kept whole. *)
Theorem select_mask_within_component_selection (op : Op) (roi : Roi) :
  exists out,
    request op roi = inr out
    /\ Forall2 Z.le (a_data out)
         (select_components (a_data (fetch (big op) (fst roi) (snd roi)))
                            (a_data (fetch (small op) (fst roi) (snd roi)))).
Proof.
  eexists. split; [apply request_explicit|].
  unfold select_components, fetch. cbn [a_data].
  rewrite map_map. apply Forall2_maps. intros i Hi.
  rewrite select_voxel_signed.
  destruct (Z.eqb_spec (voxel (small op) (vplus (fst roi) i)) 0) as [E|N];
    simpl.
  - match goal with |- _ <= Z.b2z ?b => destruct b end; simpl; lia.
  - destruct (Z.ltb_spec 0 (voxel (big op) (vplus (fst roi) i))) as [P|P];
      simpl; [|lia].
    assert (S : label_survives
                  (map (fun i0 => voxel (big op) (vplus (fst roi) i0))
                       (indices (vminus (snd roi) (fst roi))))
                  (map (fun i0 => voxel (small op) (vplus (fst roi) i0))
                       (indices (vminus (snd roi) (fst roi))))
                  (voxel (big op) (vplus (fst roi) i)) = true).
    { unfold label_survives. apply existsb_exists.
      exists (voxel (big op) (vplus (fst roi) i),
              voxel (small op) (vplus (fst roi) i)).
      split.
      - exact (in_combine_maps _ _ _ i Hi).
      - simpl. rewrite Z.eqb_refl. simpl.
        destruct (Z.eqb_spec (voxel (small op) (vplus (fst roi) i)) 0);
          [contradiction|reflexivity]. }
    rewrite S. simpl. lia.
Qed.

End SelectLabelsMore.

(** ** Further properties of the composite operator *)

Section ThresholdsMore.

Import OpThresholdTwoLevels.

Variable fmul : Q -> Q -> Q.
Variable compare_as : Dtype -> Q -> Q.

Lemma above_antitone (v t1 t2 : Q) :
  (t1 <= t2)%Q ->
  (of_bool (negb (Qle_bool v t2)) <= of_bool (negb (Qle_bool v t1)))%Q.
Proof.
  intros H. destruct (Qle_bool v t1) eqn:E1; simpl.
  - apply Qle_bool_iff in E1.
    assert (E2 : Qle_bool v t2 = true)
      by (apply Qle_bool_iff; eapply Qle_trans; eassumption).
    rewrite E2. simpl. apply Qle_refl.
  - destruct (Qle_bool v t2); simpl; discriminate.
Qed.

Lemma above_antitone_all (t1 t2 : Q) (data : list Q) :
  (t1 <= t2)%Q ->
  Forall2 Qle (map of_bool (map (fun v => negb (Qle_bool v t2)) data))
              (map of_bool (map (fun v => negb (Qle_bool v t1)) data)).
Proof.
  intros H. induction data as [|v data IH]; simpl; constructor; [|exact IH].
  now apply above_antitone.
Qed.

(** X15. Hysteresis: when the floating-point product with the upper
    bound of the display range is monotone in the threshold, the
    conversion of a threshold to the comparison type of the array is
    monotone too, and the configured low threshold is at most the high
    one, every voxel that the high-threshold stage marks is also marked by
    the low-threshold stage on the same data. *)
Theorem high_regions_within_low_regions (cfg : Config) (m : Meta)
  (a out_lo out_hi : ndarray Q) :
  (forall dr, drange m = Some dr ->
     forall x y, (x <= y)%Q -> (fmul x (snd dr) <= fmul y (snd dr))%Q) ->
  (forall x y, (x <= y)%Q ->
     (compare_as (a_dtype a) x <= compare_as (a_dtype a) y)%Q) ->
  (low_bound cfg <= high_bound cfg)%Q ->
  opLowThresholder_Function fmul compare_as cfg m a = inr out_lo ->
  opHighThresholder_Function fmul compare_as cfg m a = inr out_hi ->
  Forall2 Qle (a_data out_hi) (a_data out_lo).
Proof.
  intros Hm Hc Hle.
  unfold opLowThresholder_Function, opHighThresholder_Function,
    thresholdToUint8, gt_scalar.
  destruct (drange m) as [dr|] eqn:Ed.
  - destruct (Qeq_bool (fst dr) (0#1)); simpl; [|discriminate].
    specialize (Hm dr eq_refl _ _ Hle). apply Hc in Hm.
    destruct (Dtype_eqb (a_dtype a) uint8); simpl;
      intros [= <-] [= <-]; simpl; now apply above_antitone_all.
  - simpl. apply Hc in Hle.
    destruct (Dtype_eqb (a_dtype a) uint8); simpl;
      intros [= <-] [= <-]; simpl; now apply above_antitone_all.
Qed.

End ThresholdsMore.

Lemma coarse_float32_monotone (d : Dtype) (x y : Q) :
  (x <= y)%Q -> (coarse_float32 d x <= coarse_float32 d y)%Q.
Proof.
  intros H. destruct d; unfold coarse_float32; try exact H.
  apply Qmult_le_compat_r; [|discriminate].
  rewrite <- Zle_Qle. apply Qfloor_resp_le.
  apply Qmult_le_compat_r; [exact H|discriminate].
Qed.

Lemma high_regions_within_low_regions_witness :
  Forall2 Qle [(0#1)%Q; (1#1)%Q; (0#1)%Q; (1#1)%Q]
              [(1#1)%Q; (1#1)%Q; (1#1)%Q; (1#1)%Q].
Proof.
  apply (high_regions_within_low_regions Qmult coarse_float32
           (OpThresholdTwoLevels.mkConfig 1 (1#5) (3#5)
              (mkMeta [10; 10; 2] [Kx; Ky; Kc] uint32 (Some (0#1, 1#1)%Q)))
           (smoothed_meta (Some (0#1, 1#1)%Q)) one_row
           (mkArray uint8 [4; 1] [(1#1)%Q; (1#1)%Q; (1#1)%Q; (1#1)%Q])
           (mkArray uint8 [4; 1] [(0#1)%Q; (1#1)%Q; (0#1)%Q; (1#1)%Q])).
  - intros dr [= <-] x y H. simpl.
    apply Qmult_le_compat_r; [exact H|discriminate].
  - intros x y H. now apply coarse_float32_monotone.
  - discriminate.
  - reflexivity.
  - reflexivity.
Defined.

Section CompositeSetup.

Import OpThresholdTwoLevels.

Lemma axistags_index_absent (tags : list AxisKey) :
  ~ In Kc tags -> axistags_index Kc tags = length tags.
Proof.
  induction tags as [|t tags IH]; simpl; [reflexivity|].
  intros H. destruct t; simpl; try (rewrite IH by tauto; reflexivity).
  elim H. auto.
Qed.

(** X16. For an input image of rank at most 4 whose channel axis holds
    [n >= 1] channels and a non-negative channel parameter [c]: with
    [c = n] the lookup of the slice raises IndexError, and whenever the
    statements of [setupOutputs] get through, the smoother has been
    connected to slice 0 if [c > n] and to slice [c] if [c < n], the two
    thresholds are bound as configured, and the output metadata is the
    input's with element type uint32.  (What the connected smoother does
    when it is configured in turn is not part of this statement.) *)
Theorem composite_setup_selects_slice (inp : Inputs) (n : Z) :
  (length (shape (InputImage_meta inp)) <= 4)%nat ->
  nth_error (shape (InputImage_meta inp))
            (axistags_index Kc (axistags (InputImage_meta inp))) = Some n ->
  1 <= n -> 0 <= Channel_value inp ->
  (Channel_value inp = n -> setupOutputs inp = inl IndexError)
  /\ (forall cfg,
        setupOutputs inp = inr cfg ->
        Channel_value inp <> n
        /\ cfg
           = mkConfig
               (if Channel_value inp >? n then O
                else Z.to_nat (Channel_value inp))
               (LowThreshold_value inp) (HighThreshold_value inp)
               (mkMeta (shape (InputImage_meta inp))
                       (axistags (InputImage_meta inp)) uint32
                       (drange (InputImage_meta inp)))).
Proof.
  intros Hr Hn Hpos Hc. apply Nat.leb_le in Hr.
  unfold setupOutputs. rewrite Hr. simpl. unfold tuple_get. rewrite Hn. simpl.
  unfold Slices_index, seq_index. split.
  - intros H. rewrite H.
    destruct (Z.gtb_spec n n); [lia|].
    destruct (Z.leb_spec 0 n); [|lia].
    destruct (Z.ltb_spec n n); [lia|].
    destruct (Z.ltb_spec n 0); [lia|]. reflexivity.
  - intros cfg.
    destruct (Z.gtb_spec (Channel_value inp) n).
    + destruct (Z.leb_spec 0 0); [|lia].
      destruct (Z.ltb_spec 0 n); [|lia]. simpl.
      intros [= <-]. split; [lia|reflexivity].
    + destruct (Z.leb_spec 0 (Channel_value inp)); [|lia].
      destruct (Z.ltb_spec (Channel_value inp) n); simpl.
      * intros [= <-]. split; [lia|reflexivity].
      * destruct (Z.ltb_spec (Channel_value inp) 0); [lia|]. simpl.
        discriminate.
Qed.

Lemma composite_setup_selects_slice_witness :
  5 <> 2
  /\ mkConfig O (1#5) (1#2)
       (mkMeta [10; 10; 2] [Kx; Ky; Kc] uint32 (Some (0#1, 1#1)%Q))
     = mkConfig (if 5 >? 2 then O else Z.to_nat 5) (1#5) (1#2)
         (mkMeta [10; 10; 2] [Kx; Ky; Kc] uint32 (Some (0#1, 1#1)%Q)).
Proof.
  apply (proj2 (composite_setup_selects_slice
                  (mkInputs (InputImage_meta two_channel_inputs) (1#2) (1#5) 5)
                  2 ltac:(simpl; lia) eq_refl ltac:(lia) ltac:(simpl; lia))
           (mkConfig O (1#5) (1#2)
              (mkMeta [10; 10; 2] [Kx; Ky; Kc] uint32 (Some (0#1, 1#1)%Q)))).
  reflexivity.
Defined.

(** X17. An input image without channel axis cannot be configured: with
    one extent per axis tag and rank at most 4, the lookup of the channel
    extent raises IndexError. *)
Theorem composite_setup_needs_channel_axis (inp : Inputs) :
  (length (shape (InputImage_meta inp)) <= 4)%nat ->
  length (shape (InputImage_meta inp))
  = length (axistags (InputImage_meta inp)) ->
  ~ In Kc (axistags (InputImage_meta inp)) ->
  setupOutputs inp = inl IndexError.
Proof.
  intros Hr Hl Hc. apply Nat.leb_le in Hr.
  unfold setupOutputs. rewrite Hr. simpl.
  rewrite axistags_index_absent by exact Hc.
  unfold tuple_get.
  destruct (nth_error _ _) eqn:E; [|reflexivity].
  assert (nth_error (shape (InputImage_meta inp))
                    (length (axistags (InputImage_meta inp))) = None)
    by (apply nth_error_None; lia).
  congruence.
Qed.

Lemma composite_setup_needs_channel_axis_witness :
  setupOutputs (mkInputs (mkMeta [6; 5] [Kx; Ky] uint8 None) (1#2) (1#5) 0)
  = inl IndexError.
Proof.
  apply (composite_setup_needs_channel_axis
           (mkInputs (mkMeta [6; 5] [Kx; Ky] uint8 None) (1#2) (1#5) 0)).
  - simpl. lia.
  - reflexivity.
  - simpl. intuition discriminate.
Defined.

End CompositeSetup.

Section SelectLabelsLocal.

Import OpSelectLabels.

Lemma zrange_In (n x : Z) : In x (zrange n) -> 0 <= x < n.
Proof.
  unfold zrange. intros H. apply in_map_iff in H as [k [<- Hk]].
  apply in_seq in Hk. lia.
Qed.

Lemma indices_in_shape (sh i : list Z) :
  In i (indices sh) -> inside i (map (fun _ => 0) sh) sh.
Proof.
  revert i. induction sh as [|n sh IH]; intros i; simpl.
  - intros [<-|[]]. exact I.
  - intros H. apply in_flat_map in H as [x [Hx Hi]].
    apply in_map_iff in Hi as [j [<- Hj]]. simpl.
    split; [exact (zrange_In _ _ Hx)|exact (IH _ Hj)].
Qed.

Lemma offset_inside (s e i : list Z) :
  length s = length e ->
  inside i (map (fun _ => 0) (vminus e s)) (vminus e s) ->
  inside (vplus s i) s e.
Proof.
  unfold vminus, vplus. revert e i.
  induction s as [|a s IH]; intros [|b e] [|x i] L; simpl in *;
    try discriminate; try tauto.
  intros [Hx H]. split; [lia|]. apply IH; [congruence|exact H].
Qed.

(** X18. A request reads nothing outside its roi: two pairs of inputs
    that agree at every position of the roi give the same answer, whatever
    they hold elsewhere. *)
Theorem select_request_is_local (op op' : Op) (roi : Roi) :
  length (fst roi) = length (snd roi) ->
  (forall p, inside p (fst roi) (snd roi) ->
             voxel (small op) p = voxel (small op') p
             /\ voxel (big op) p = voxel (big op') p) ->
  request op roi = request op' roi.
Proof.
  intros L H. rewrite !request_explicit. do 2 f_equal.
  apply map_ext_in. intros i Hi.
  destruct (H (vplus (fst roi) i)) as [-> ->]; [|reflexivity].
  apply offset_inside; [exact L|]. now apply indices_in_shape.
Qed.

Lemma select_request_is_local_witness :
  request (mkOp one_seed two_components) ([0; 0], [2; 2])
  = request (mkOp one_seed
                  (mkSlot (meta two_components)
                          (fun p => match p with
                                    | [0; 0] | [0; 1] | [1; 0] | [1; 1] => 1
                                    | _ => 9
                                    end)))
            ([0; 0], [2; 2]).
Proof.
  apply (select_request_is_local (mkOp one_seed two_components)
           (mkOp one_seed
                 (mkSlot (meta two_components)
                         (fun p => match p with
                                   | [0; 0] | [0; 1] | [1; 0] | [1; 1] => 1
                                   | _ => 9
                                   end)))
           ([0; 0], [2; 2])).
  - reflexivity.
  - intros p Hp. split; [reflexivity|].
    destruct p as [|x [|y [|z p]]]; simpl in Hp; try tauto.
    destruct Hp as (Hx & Hy & _).
    assert (Ex : x = 0 \/ x = 1) by lia. assert (Ey : y = 0 \/ y = 1) by lia.
    destruct Ex as [-> | ->], Ey as [-> | ->]; reflexivity.
Defined.

(** X19. What a request returns agrees with the metadata that
    [setupOutputs] declares: the element type is the declared uint8, the
    shape is the extent of the roi, there is one value per position of the
    roi, and every value lies in the declared display range (0, 1). *)
Theorem select_output_matches_metadata (op : Op) (roi : Roi) :
  exists out,
    request op roi = inr out
    /\ a_dtype out = dtype (setupOutputs op)
    /\ a_shape out = vminus (snd roi) (fst roi)
    /\ length (a_data out) = length (indices (vminus (snd roi) (fst roi)))
    /\ drange (setupOutputs op) = Some (0#1, 1#1)%Q
    /\ Forall (fun v => 0 <= v <= 1) (a_data out).
Proof.
  eexists. split; [apply request_explicit|]. cbn [a_dtype a_shape a_data].
  split; [reflexivity|]. split; [reflexivity|].
  split; [apply length_map|]. split; [reflexivity|].
  apply Forall_forall. intros v Hv. apply in_map_iff in Hv as [i [<- _]].
  rewrite select_voxel_signed.
  match goal with |- _ <= Z.b2z ?b <= _ => destruct b end; simpl; lia.
Qed.

End SelectLabelsLocal.

(** ** What the smoothing operator returns *)

Section SmoothingResult.

Import OpAnisotropicGaussianSmoothing.

Lemma every_nth_one {V} (l : list V) : every_nth 1 0 l = l.
Proof. induction l as [|x l IH]; simpl; [reflexivity|]. now rewrite IH. Qed.

Lemma scatter_nth_one {V} (l src : list V) :
  length src = length l -> scatter_nth 1 0 l src = src.
Proof.
  revert src. induction l as [|x l IH]; intros [|y src] L; simpl in *;
    try discriminate; try reflexivity.
  rewrite IH by congruence. reflexivity.
Qed.

Lemma nth_error_zipw (f : Z -> Z -> Z) (c : nat) (a b : list Z) (x y : Z) :
  nth_error a c = Some x -> nth_error b c = Some y ->
  nth_error (zipw f a b) c = Some (f x y).
Proof.
  revert a b. induction c as [|c IH]; intros [|u a] [|v b]; simpl;
    try discriminate.
  - intros [= <-] [= <-]. reflexivity.
  - apply IH.
Qed.

Lemma last_nth_error {A} (l : list A) (d v : A) :
  nth_error l (Nat.pred (length l)) = Some v -> l <> [] -> last l d = v.
Proof.
  induction l as [|x l IH]; intros H Hn; [congruence|].
  destruct l as [|y l]; simpl in *; [congruence|].
  apply IH; [exact H|discriminate].
Qed.

Lemma fetch_ext {V} (s s' : Slot V) (start stop : list Z) :
  length start = length stop ->
  dtype (meta s) = dtype (meta s') ->
  (forall p, inside p start stop -> voxel s p = voxel s' p) ->
  fetch s start stop = fetch s' start stop.
Proof.
  intros L Hd H. unfold fetch. rewrite Hd. f_equal.
  apply map_ext_in. intros i Hi. apply H.
  apply offset_inside; [exact L|]. now apply indices_in_shape.
Qed.

(** X20. The smoothing of a roi depends on the input only inside the
    input roi: two inputs of one element type that agree at every position
    of the roi that [_getInputComputeRois] returns give the same
    [execute]. *)
Theorem smoothing_reads_only_input_roi (tf : Q -> Q)
  (k : ndarray Q -> list (option Q) -> Roi -> ndarray Q -> ndarray Q)
  (op : Op) (input input' : Slot Q) (roi iR cR : Roi) (result : ndarray Q) :
  _getInputComputeRois op roi = inr (iR, cR) ->
  dtype (meta input) = dtype (meta input') ->
  (forall p, inside p (fst iR) (snd iR) -> voxel input p = voxel input' p) ->
  execute tf k op input roi result = execute tf k op input' roi result.
Proof.
  intros Hr Hd H.
  assert (Hf : fetch input (fst iR) (snd iR) = fetch input' (fst iR) (snd iR)).
  { apply fetch_ext; auto.
    destruct (rois_inversion op roi iR cR Hr)
      as (c & s0 & s1 & h & _ & _ & _ & _ & Lh & L1 & Ls & _ & -> & _).
    cbn [fst snd]. rewrite !insert_at_length. f_equal.
    rewrite length_map, zipw_length by lia.
    rewrite zipw_length; rewrite zipw_length; lia. }
  unfold execute. rewrite Hr.
  destruct (assert 49 _) as [e|u]; simpl; [reflexivity|].
  destruct (view_last0 result) as [e|out]; simpl; [reflexivity|].
  rewrite Hf. reflexivity.
Qed.

Lemma smoothing_reads_only_input_roi_witness :
  execute (fun q => q) kernel_out smoother_2d ramp ([2; 1; 0], [3; 2; 1])
          (allocateDestination (0#1)%Q (out_meta smoother_2d)
                               [2; 1; 0] [3; 2; 1])
  = execute (fun q => q) kernel_out smoother_2d
            (mkSlot (meta ramp)
                    (fun p => match p with
                              | [5; _; _] => (77#1)%Q
                              | _ => voxel ramp p
                              end))
            ([2; 1; 0], [3; 2; 1])
            (allocateDestination (0#1)%Q (out_meta smoother_2d)
                                 [2; 1; 0] [3; 2; 1]).
Proof.
  apply (smoothing_reads_only_input_roi (fun q => q) kernel_out smoother_2d
           ramp _ ([2; 1; 0], [3; 2; 1]) ([0; 0; 0], [5; 5; 1])
           ([2; 1], [3; 2])).
  - reflexivity.
  - reflexivity.
  - intros p Hp.
    destruct p as [|x [|y [|z [|w p]]]]; simpl in Hp; try tauto.
    destruct Hp as (Hx & _).
    cbn [voxel]. destruct x as [|x|x]; try reflexivity; try lia.
    do 3 (destruct x as [x|x|]; try reflexivity; try lia).
Defined.

Variable to_float32 : Q -> Q.
Variable k : ndarray Q -> list (option Q) -> Roi -> ndarray Q -> ndarray Q.
Variable op : Op.
Variable input : Slot Q.
Variable roi : Roi.

Hypothesis Hwf : well_formed op.
Hypothesis Hroi : within (fst roi) (snd roi) (shape (in_meta op)).
Hypothesis Hlast : channel_last (in_meta op).
Hypothesis Hone : channel_extent (in_meta op) = Some 1.
Hypothesis Hk : kernel_contract k.
Hypothesis Hfill :
  forall d s r out, length (a_data (k d s r out)) = length (a_data out).

(** X21. On a single-channel input with the channel axis last, a request
    over a non-empty roi within bounds returns the array the kernel
    computed: the kernel is called on the float32 version of the data
    fetched over the input roi, with the operator's sigmas, the compute
    roi and the channel-0 view of the destination; the result carries the
    declared element type, the requested shape and the kernel's values,
    and the input roi is the one request made. *)
Theorem request_returns_kernel_output :
  exists iR cR outv,
    _getInputComputeRois op roi = inr (iR, cR)
    /\ view_last0 (allocateDestination (0#1)%Q (out_meta op) (fst roi) (snd roi))
       = inr outv
    /\ request to_float32 k op input roi
       = inr (mkOutcome
                (mkArray (dtype (out_meta op)) (vminus (snd roi) (fst roi))
                   (a_data (k (ensure_float32 to_float32
                                 (fetch input (fst iR) (snd iR)))
                              (spatial_sigma op) cR outv)))
                [iR]).
Proof.
  destruct (operator_axes op Hwf) as (c & shp' & Ec & Hc & Ep & Es & Eh & Lh & Lt).
  destruct (within_lengths _ _ _ Hroi) as [L0 L1].
  pose proof Hwf as (_ & _ & Hl & _ & _).
  destruct (pop_at_length c (fst roi)) as [s0 [E0 Ls0]]; [lia|].
  destruct (pop_at_length c (snd roi)) as [s1 [E1 Ls1]]; [lia|].
  pose proof (rois_explicit op roi c shp' Ec Es Eh Lh s0 s1 E0 E1
                ltac:(lia) ltac:(lia)) as Er.
  cbv zeta in Er.
  set (lo := map (fun x => Z.max x 0) (zipw Z.sub s0 (halo_radii op))) in *.
  set (hi := zipw Z.min (zipw Z.add s1 (halo_radii op)) shp') in *.
  assert (Llo : length lo = length s0)
    by (unfold lo; rewrite length_map, zipw_length; congruence).
  assert (La : length (zipw Z.sub s0 lo) = length s0)
    by (apply zipw_length; congruence).
  assert (Lb : length (zipw Z.add (zipw Z.sub s0 lo) s1) = length s0)
    by (rewrite zipw_length; congruence).
  assert (Lc : length (zipw Z.sub (zipw Z.add (zipw Z.sub s0 lo) s1) s0)
               = length s0)
    by (rewrite zipw_length; congruence).
  assert (Hext : zipw Z.sub (zipw Z.sub (zipw Z.add (zipw Z.sub s0 lo) s1) s0)
                      (zipw Z.sub s0 lo)
                 = zipw Z.sub s1 s0)
    by (apply zipw_offset_cancel; congruence).
  set (extent := vminus (snd roi) (fst roi)).
  assert (Lext : length extent = length (axistags (in_meta op)))
    by (unfold extent, vminus; rewrite zipw_length; lia).
  assert (Hne : extent <> [])
    by (intros E; rewrite E in Lext; simpl in Lext; lia).
  assert (Hc1 : c = Nat.pred (length extent)).
  { unfold channel_last in Hlast. rewrite Ec in Hlast.
    injection Hlast as ->. now rewrite Lext. }
  assert (Hrem : removelast extent = zipw Z.sub s1 s0).
  { pose proof (pop_at_zipw Z.sub c _ _ _ _ E1 E0) as Epop.
    fold vminus in Epop. fold extent in Epop.
    rewrite Hc1, pop_at_last in Epop by exact Hne. now injection Epop. }
  assert (Hl1 : forall d, last extent d = 1).
  { intros d. apply last_nth_error; [|exact Hne]. rewrite <- Hc1.
    unfold channel_extent in Hone. rewrite Ec in Hone.
    destruct (within_nth c _ _ _ 1 Hroi Hone) as (a & b & Ha & Hb & Hab & Hb1).
    unfold extent, vminus. rewrite (nth_error_zipw Z.sub c _ _ b a Hb Ha).
    f_equal. lia. }
  set (dest := allocateDestination (0#1)%Q (out_meta op) (fst roi) (snd roi)).
  assert (Hview : view_last0 dest
                  = inr (mkArray (dtype (out_meta op)) (removelast extent)
                                 (a_data dest))).
  { rewrite view_last0_ok.
    - change (a_shape dest) with extent. rewrite Hl1.
      change (Z.to_nat 1) with 1%nat. rewrite every_nth_one. reflexivity.
    - exact Hne.
    - change (a_shape dest) with extent. rewrite Hl1. lia. }
  eexists _, _, _. split; [exact Er|]. split; [exact Hview|].
  unfold request, execute. fold dest.
  rewrite (within_all_le _ _ _ Hroi). simpl. rewrite Er. simpl.
  rewrite Hview. simpl. unfold vsub. rewrite vzip_zipw by congruence.
  rewrite Hext. simpl.
  match goal with |- context [shape_eqb (a_shape ?s) _] => set (sm := s) end.
  assert (Hsm : a_shape sm = zipw Z.sub s1 s0).
  { unfold sm. rewrite Hk; cbn [fst snd a_shape].
    - exact Hext.
    - transitivity (zipw Z.sub s1 s0); [exact Hrem|symmetry; exact Hext]. }
  rewrite Hsm, shape_eqb_refl. simpl.
  unfold write_last0. change (a_shape dest) with extent. rewrite Hl1.
  change (Z.to_nat 1) with 1%nat.
  rewrite scatter_nth_one by (unfold sm; rewrite Hfill; reflexivity).
  reflexivity.
Qed.

End SmoothingResult.

Lemma request_returns_kernel_output_witness :
  exists iR cR outv,
    OpAnisotropicGaussianSmoothing._getInputComputeRois smoother_2d
      ([2; 1; 0], [3; 2; 1]) = inr (iR, cR)
    /\ OpAnisotropicGaussianSmoothing.view_last0
         (allocateDestination (0#1)%Q
            (OpAnisotropicGaussianSmoothing.out_meta smoother_2d)
            [2; 1; 0] [3; 2; 1]) = inr outv
    /\ OpAnisotropicGaussianSmoothing.request (fun q => q) kernel_out
         smoother_2d ramp ([2; 1; 0], [3; 2; 1])
       = inr (OpAnisotropicGaussianSmoothing.mkOutcome
                (mkArray float32 [1; 1; 1]
                   (a_data (kernel_out
                              (OpAnisotropicGaussianSmoothing.ensure_float32
                                 (fun q => q)
                                 (fetch ramp (fst iR) (snd iR)))
                              (OpAnisotropicGaussianSmoothing.spatial_sigma
                                 smoother_2d) cR outv)))
                [iR]).
Proof.
  apply (request_returns_kernel_output (fun q => q) kernel_out smoother_2d
           ramp ([2; 1; 0], [3; 2; 1])).
  - unfold well_formed. simpl. repeat split.
    repeat constructor; simpl; intuition discriminate.
  - simpl. lia.
  - reflexivity.
  - reflexivity.
  - intros d s r out H. exact H.
  - intros d s r out. reflexivity.
Defined.

(** ** The inner graph *)

Section InnerGraph.

Import Wiring.

Lemma feeds_created (src dst : InnerOp) :
  feeds src dst -> (created src < created dst)%nat.
Proof.
  intros (slot & out & H). unfold all_connections, init_connections,
    setup_connection in H. simpl in H.
  repeat (destruct H as [H|H]; [inversion H; subst; simpl; lia|]).
  destruct H.
Qed.

Lemma upstream_created (src dst : InnerOp) :
  clos_trans InnerOp feeds src dst -> (created src < created dst)%nat.
Proof.
  induction 1 as [x y H|x y z _ IH1 _ IH2].
  - now apply feeds_created.
  - lia.
Qed.

(** X22. The inner graph that [__init__] and [setupOutputs] wire has no
    cycle: every connection between inner operators leads from an operator
    constructed earlier to one constructed later, so no operator is
    (transitively) upstream of itself; and no inner input slot is connected
    more than once. *)
Theorem inner_graph_is_acyclic :
  (forall src dst, feeds src dst -> (created src < created dst)%nat)
  /\ (forall o, ~ clos_trans InnerOp feeds o o)
  /\ (forall o s, (connected_times o s <= 1)%nat).
Proof.
  split; [exact feeds_created|]. split.
  - intros o H. apply upstream_created in H. lia.
  - intros o s. destruct o, s; vm_compute; lia.
Qed.

(** Operators that the low-threshold debug cache depends on. *)
Lemma upstream_of_big_regions (x y : InnerOp) :
  clos_trans InnerOp feeds x y ->
  In y [opBigRegionCache; opLowLabeler; opLowThresholder; opSmoother;
        opChannelSlicer] ->
  In x [opLowThresholder; opSmoother; opChannelSlicer].
Proof.
  intros H. apply clos_trans_tn1 in H.
  induction H as [y H|y z H _ IH]; intros Hy.
  - destruct H as (slot & out & H).
    unfold all_connections, init_connections, setup_connection in H.
    simpl in H, Hy.
    repeat (destruct H as [H|H];
            [inversion H; subst; simpl; intuition discriminate|]).
    destruct H.
  - apply IH.
    destruct H as (slot & out & H).
    unfold all_connections, init_connections, setup_connection in H.
    simpl in H, Hy.
    repeat (destruct H as [H|H];
            [inversion H; subst; simpl; intuition discriminate|]).
    destruct H.
Qed.

(** X23. The size filter is not upstream of the low-threshold branch: no
    chain of connections leads from [opHighLabelSizeFilter] (the only
    operator that reads MinSize and MaxSize) to the big-labels labeler or
    to the cache behind the BigRegions output, while both label inputs of
    [opSelectLabels] are downstream of the smoother. *)
Theorem size_filter_not_upstream_of_big_regions :
  ~ clos_trans InnerOp feeds opHighLabelSizeFilter opBigRegionCache
  /\ ~ clos_trans InnerOp feeds opHighLabelSizeFilter opLowLabeler
  /\ (forall o slot src,
         In (o, slot, FromSelf src) all_connections ->
         src = OpThresholdTwoLevels.MinSize \/ src = OpThresholdTwoLevels.MaxSize ->
         o = opHighLabelSizeFilter)
  /\ clos_trans InnerOp feeds opSmoother opSelectLabels.
Proof.
  split; [|split; [|split]].
  - intros H. apply upstream_of_big_regions in H; simpl in *;
      intuition discriminate.
  - intros H. apply upstream_of_big_regions in H; simpl in *;
      intuition discriminate.
  - intros o slot src H Hs.
    unfold all_connections, init_connections, setup_connection in H.
    simpl in H.
    repeat (destruct H as [H|H];
            [inversion H; subst; try reflexivity;
             destruct Hs; discriminate|]).
    destruct H.
  - apply t_trans with opLowThresholder; [|apply t_trans with opLowLabeler];
      apply t_step; eexists _, _; unfold all_connections, init_connections;
      simpl; tauto.
Qed.

End InnerGraph.

Lemma inner_graph_is_acyclic_witness :
  (Wiring.created Wiring.opSmoother < Wiring.created Wiring.opLowThresholder)%nat.
Proof.
  apply (proj1 inner_graph_is_acyclic Wiring.opSmoother Wiring.opLowThresholder).
  exists Wiring.sInput, Wiring.sOutput. simpl. tauto.
Defined.

Lemma size_filter_not_upstream_of_big_regions_witness :
  Wiring.opHighLabelSizeFilter = Wiring.opHighLabelSizeFilter.
Proof.
  apply (proj1 (proj2 (proj2 size_filter_not_upstream_of_big_regions))
           Wiring.opHighLabelSizeFilter Wiring.sMinLabelSize
           OpThresholdTwoLevels.MinSize).
  - simpl. tauto.
  - left. reflexivity.
Defined.
